(** * clearly-defined: a shallow embedding of the coordinate model, the
    tolerant definition decoder, the batch request builder and the response
    handling of the crate. *)

From Stdlib Require Import String Ascii List Lia Arith NArith ZArith.
From Stdlib Require Import Decimal DecimalString DecimalN.
From Stdlib Require Import Sorting.Sorted.
Import ListNotations.
Open Scope string_scope.
Open Scope bool_scope.

(** ** Results, as Rust's [Result<T, E>] *)

Inductive result (A E : Type) : Type :=
| Ok (a : A)
| Err (e : E).
Arguments Ok {A E} a.
Arguments Err {A E} e.

(** Decimal rendering of an unsigned integer, as Rust's [{}] on [u32]. *)
Definition dec_N (n : N) : string := NilEmpty.string_of_uint (N.to_uint n).

(** ** error.rs *)

(** [http::StatusCode]: the numeric code. *)
Definition StatusCode := N.

(** The serde/serde_json failure causes the crate can surface. *)
Inductive DeError : Type :=
| DuplicateField (field : string)
| MissingField (field : string)
| InvalidType (expected : string)
| Custom (msg : string)
(* serde_json's syntax errors ([ErrorCode]), by their message *)
| Syntax (code : string).

Inductive Error : Type :=
| Http (msg : string)
| HttpStatus (code : StatusCode)
| Json (e : DeError)
| Other (msg : string).

(** ** lib.rs: Shape and Provider *)

Inductive Shape : Type := Crate | Git.
Inductive Provider : Type := CratesIo | Github.

Definition Shape_as_str (s : Shape) : string :=
  match s with
  | Crate => "crate"
  | Git => "git"
  end.

Definition Shape_from_str (s : string) : result Shape Error :=
  if String.eqb s "crate" then Ok Crate
  else if String.eqb s "git" then Ok Git
  else Err (Other ("unknown shape '" ++ s ++ "'")).

Definition Provider_as_str (p : Provider) : string :=
  match p with
  | CratesIo => "cratesio"
  | Github => "github"
  end.

Definition Provider_from_str (s : string) : result Provider Error :=
  if String.eqb s "cratesio" then Ok CratesIo
  else if String.eqb s "github" then Ok Github
  else Err (Other ("unknown provider '" ++ s ++ "'")).

(** ** lib.rs: CoordVersion *)

(** [semver::Version]: the fields of the semver crate's version value;
    pre-release and build metadata are kept as their text. *)
Record SemVer : Type := mkSemVer {
  sv_major : N; sv_minor : N; sv_patch : N;
  sv_pre : string; sv_build : string }.

(** The semver crate is a dependency, not code of this crate: its parser
    ([str::parse::<semver::Version>]) and its [Display] are the two
    operations the crate uses, taken as a class so that the results below
    hold for any implementation of them. *)
Class SemverLib : Type := {
  semver_parse : string -> option SemVer;
  semver_display : SemVer -> string }.

Inductive CoordVersion : Type :=
| Version (v : SemVer)
| Any (s : string).

Section Versions.
Context {SL : SemverLib}.

(** [CoordVersion::deserialize]'s [visit_str]: never an error. *)
Definition CoordVersion_visit_str (value : string) : result CoordVersion DeError :=
  match semver_parse value with
  | Some vs => Ok (Version vs)
  | None => Ok (Any value)
  end.

(** [impl Display for CoordVersion]. *)
Definition CoordVersion_display (v : CoordVersion) : string :=
  match v with
  | Version vs => semver_display vs
  | Any s => s
  end.

(** ** lib.rs: the [Coord] trait and [CoordDisp] *)

Class Coord (T : Type) : Type := {
  coord_shape : T -> Shape;
  coord_provider : T -> Provider;
  coord_namespace : T -> option string;
  coord_name : T -> string;
  coord_version : T -> CoordVersion;
  coord_curation_pr : T -> option N }.

(** [impl Display for CoordDisp<'_, T>]. *)
Definition CoordDisp {T} `{Coord T} (c : T) : string :=
  Shape_as_str (coord_shape c) ++ "/" ++
  Provider_as_str (coord_provider c) ++ "/" ++
  match coord_namespace c with Some ns => ns | None => "-" end ++ "/" ++
  coord_name c ++ "/" ++
  CoordVersion_display (coord_version c) ++
  match coord_curation_pr c with
  | Some pr => "/pr/" ++ dec_N pr
  | None => ""
  end.

End Versions.

(** ** Splitting on a separator, as Rust's [str::split(char)] *)

(** [split_on c s]: the pieces of [s] between occurrences of [c]; never
    empty ([""] splits to [[""]]). *)
Fixpoint split_on (c : ascii) (s : string) : list string :=
  match s with
  | EmptyString => [EmptyString]
  | String a s' =>
      if Ascii.eqb a c then EmptyString :: split_on c s'
      else match split_on c s' with
           | [] => [String a EmptyString]
           | x :: xs => String a x :: xs
           end
  end.

(** The inverse: pieces joined with [c]. *)
Fixpoint join_on (c : ascii) (l : list string) : string :=
  match l with
  | [] => EmptyString
  | [x] => x
  | x :: xs => x ++ String c (join_on c xs)
  end.

(** [s] does not contain the character [c]. *)
Fixpoint no_char (c : ascii) (s : string) : bool :=
  match s with
  | EmptyString => true
  | String a s' => negb (Ascii.eqb a c) && no_char c s'
  end.

(** [<u32 as FromStr>::from_str]: an optional [+], then at least one
    decimal digit, and a value that fits in 32 bits. *)
Definition parse_u32 (s : string) : option N :=
  let digits :=
    match s with
    | String a r => if Ascii.eqb a "+"%char then r else s
    | EmptyString => s
    end in
  match digits with
  | EmptyString => None
  | _ =>
      match NilEmpty.uint_of_string digits with
      | Some d => let n := N.of_uint d in
                  if (n <=? 4294967295)%N then Some n else None
      | None => None
      end
  end.

(** ** lib.rs: [Coordinate] *)

Record Coordinate : Type := mkCoordinate {
  shape : Shape;
  provider : Provider;
  namespace : option string;
  name : string;
  version : CoordVersion;
  curation_pr : option N }.

(** Modelled from the spec: the [Coord] implementation of [Coordinate] is
    not among the sources; per the spec each accessor returns its field
    (so [Display] of a [Coordinate] is [CoordDisp] on it). *)
#[global] Instance Coordinate_Coord : Coord Coordinate := {
  coord_shape := shape;
  coord_provider := provider;
  coord_namespace := namespace;
  coord_name := name;
  coord_version := version;
  coord_curation_pr := curation_pr }.

(** The positional segment a coordinate text failed at. *)
Inductive CoordParseError : Type :=
| MissingShape
| MissingProvider
| MissingNamespace
| MissingName
| MissingVersion
| BadShape (e : Error)
| BadProvider (e : Error)
| BadPrNumber (text : string)
| UnexpectedSegment (text : string).

Notation "'let*' x := e 'in' k" :=
  (match e with Ok x => k | Err err => Err err end)
  (at level 200, x name, e at level 100, k at level 200).

Section CoordinateText.
Context {SL : SemverLib}.

(** Modelled from the spec (section 4.1): the parser of coordinate texts is
    not among the sources. Segments are split on [/], read in order; [-]
    is the absent namespace; after the version an optional [pr/<u32>]; any
    other segment there is an error. *)
Definition Coordinate_parse_segs (segs : list string)
  : result Coordinate CoordParseError :=
  match segs with
  | [] => Err MissingShape
  | sh :: r1 =>
    match Shape_from_str sh with
    | Err e => Err (BadShape e)
    | Ok sp =>
      match r1 with
      | [] => Err MissingProvider
      | pv :: r2 =>
        match Provider_from_str pv with
        | Err e => Err (BadProvider e)
        | Ok pp =>
          match r2 with
          | [] => Err MissingNamespace
          | ns :: r3 =>
            let nso := if String.eqb ns "-" then None else Some ns in
            match r3 with
            | [] => Err MissingName
            | nm :: r4 =>
              match r4 with
              | [] => Err MissingVersion
              | vs :: r5 =>
                let* v := (match CoordVersion_visit_str vs with
                           | Ok v => Ok v
                           | Err _ => Err (UnexpectedSegment vs)
                           end) in
                let mk pr := mkCoordinate sp pp nso nm v pr in
                match r5 with
                | [] => Ok (mk None)
                | [p] => if String.eqb p "pr" then Err (BadPrNumber "")
                         else Err (UnexpectedSegment p)
                | p :: n :: r6 =>
                  if String.eqb p "pr" then
                    match parse_u32 n with
                    | None => Err (BadPrNumber n)
                    | Some pr =>
                      match r6 with
                      | [] => Ok (mk (Some pr))
                      | x :: _ => Err (UnexpectedSegment x)
                      end
                    end
                  else Err (UnexpectedSegment p)
                end
              end
            end
          end
        end
      end
    end
  end.

Definition Coordinate_parse (text : string) : result Coordinate CoordParseError :=
  Coordinate_parse_segs (split_on "/" text).

Definition Coordinate_format (c : Coordinate) : string := CoordDisp c.

End CoordinateText.

(** ** A reference semver implementation

    An executable instance of [SemverLib] following the semver grammar
    (major.minor.patch, decimal numerals without leading zeros, then an
    optional [-pre-release] and an optional [+build], each a dot-separated
    list of non-empty [0-9A-Za-z-] identifiers, numeric pre-release
    identifiers without leading zeros). It is used to evaluate the
    definitions on concrete inputs. *)

Definition is_digit (a : ascii) : bool :=
  let n := nat_of_ascii a in Nat.leb 48 n && Nat.leb n 57.

Definition is_ident_char (a : ascii) : bool :=
  let n := nat_of_ascii a in
  is_digit a || (Nat.leb 65 n && Nat.leb n 90) || (Nat.leb 97 n && Nat.leb n 122)
  || Ascii.eqb a "-"%char.

Fixpoint all_chars (p : ascii -> bool) (s : string) : bool :=
  match s with
  | EmptyString => true
  | String a s' => p a && all_chars p s'
  end.

(** A decimal numeral without a leading zero. *)
Definition numeral_ok (s : string) : bool :=
  match s with
  | EmptyString => false
  | String a r => all_chars is_digit s && (negb (Ascii.eqb a "0"%char) || String.eqb r "")
  end.

Definition numeral_value (s : string) : N :=
  match NilEmpty.uint_of_string s with Some d => N.of_uint d | None => 0%N end.

(** Splits at the first occurrence of [c]. *)
Fixpoint split_first (c : ascii) (s : string) : option (string * string) :=
  match s with
  | EmptyString => None
  | String a s' =>
      if Ascii.eqb a c then Some (EmptyString, s')
      else match split_first c s' with
           | Some (x, y) => Some (String a x, y)
           | None => None
           end
  end.

Definition pre_ident_ok (s : string) : bool :=
  negb (String.eqb s "") && all_chars is_ident_char s &&
  (negb (all_chars is_digit s) || numeral_ok s).

Definition build_ident_ok (s : string) : bool :=
  negb (String.eqb s "") && all_chars is_ident_char s.

Definition semver_std_parse (s : string) : option SemVer :=
  let '(rest, build) :=
    match split_first "+" s with Some (a, b) => (a, Some b) | None => (s, None) end in
  let '(core, pre) :=
    match split_first "-" rest with Some (a, b) => (a, Some b) | None => (rest, None) end in
  let pre_ok := match pre with
                | Some p => forallb pre_ident_ok (split_on "." p)
                | None => true end in
  let build_ok := match build with
                  | Some b => forallb build_ident_ok (split_on "." b)
                  | None => true end in
  match split_on "." core with
  | [ma; mi; pa] =>
      if numeral_ok ma && numeral_ok mi && numeral_ok pa && pre_ok && build_ok
         && (numeral_value ma <? 18446744073709551616)%N
         && (numeral_value mi <? 18446744073709551616)%N
         && (numeral_value pa <? 18446744073709551616)%N
      then Some (mkSemVer (numeral_value ma) (numeral_value mi) (numeral_value pa)
                          (match pre with Some p => p | None => "" end)
                          (match build with Some b => b | None => "" end))
      else None
  | _ => None
  end.

Definition semver_std_display (v : SemVer) : string :=
  dec_N (sv_major v) ++ "." ++ dec_N (sv_minor v) ++ "." ++ dec_N (sv_patch v) ++
  (if String.eqb (sv_pre v) "" then "" else "-" ++ sv_pre v) ++
  (if String.eqb (sv_build v) "" then "" else "+" ++ sv_build v).

#[global] Instance SemverStd : SemverLib := {
  semver_parse := semver_std_parse;
  semver_display := semver_std_display }.


(** ** JSON values

    A key as serde_json reads it from the text: borrowed from the input
    when it is written without escapes ([Reference::Borrowed]), copied out
    of a scratch buffer once its escapes are undone ([Reference::Copied]).
    serde's buffered content keeps the distinction ([Content::Str] and
    [Content::String]). *)
Inductive MapKey : Type :=
| Borrowed (s : string)
| Copied (s : string).

Definition key_str (k : MapKey) : string :=
  match k with Borrowed s => s | Copied s => s end.

(** A JSON document as serde buffers it once read: an object keeps its
    entries in document order, duplicates included, each key as it was
    read. *)
#[local] Set Warnings "-register-all".
Inductive json : Type :=
| JNull
| JBool (b : bool)
| JNumber (z : Z)
| JString (s : string)
| JArray (l : list json)
| JObject (kvs : list (MapKey * json)).

(** The entries with their keys as text: what a visitor whose keys accept
    both a borrowed and a copied string (a [String], a derived field
    identifier) sees. *)
Definition entries {V} (kvs : list (MapKey * V)) : list (string * V) :=
  List.map (fun kv => (key_str (fst kv), snd kv)) kvs.

(** Entries whose keys are all written without escapes. *)
Definition borrowed {V} (kvs : list (string * V)) : list (MapKey * V) :=
  List.map (fun kv => (Borrowed (fst kv), snd kv)) kvs.

Definition jobj (kvs : list (string * json)) : json := JObject (borrowed kvs).

(** ** definitions.rs: the records *)

Record DefCoords : Type := mkDefCoords {
  dc_shape : Shape;
  dc_provider : Provider;
  dc_name : string;
  dc_revision : CoordVersion }.

Record Hashes : Type := mkHashes { sha1 : string; sha256 : option string }.

Record Scores : Type := mkScores { sc_total : N; sc_date : N; sc_source : N }.

Record SourceLocation : Type := mkSourceLocation {
  sl_type : string; sl_provider : string; sl_namespace : string;
  sl_name : string; sl_revision : string; sl_url : string }.

(** [chrono::NaiveDate]. *)
Record NaiveDate : Type := mkNaiveDate { year : Z; month : N; day : N }.

Record Description : Type := mkDescription {
  release_date : NaiveDate;
  source_location : option SourceLocation;
  project_website : option string;
  urls : list (string * string);
  hashes : Hashes;
  desc_files : N;
  tools : list string;
  desc_tool_score : Scores;
  desc_score : Scores }.

Record LicenseScore : Type := mkLicenseScore {
  ls_total : N; declared_score : N; discovered_score : N;
  consistency : N; spdx : N; texts : N }.

Record Attribution : Type := mkAttribution { attr_unknown : N; parties : list string }.
Record Discovered : Type := mkDiscovered { disc_unknown : N; expressions : list string }.
Record Facet : Type := mkFacet {
  attribution : Attribution; discovered : Discovered; facet_files : N }.
Record Facets : Type := mkFacets { core : Facet }.

Record License : Type := mkLicense {
  declared : string;
  facets : Facets;
  lic_tool_score : LicenseScore;
  lic_score : LicenseScore }.

Record File : Type := mkFile {
  path : string;
  file_hashes : option Hashes;
  file_license : option string;
  attributions : list string;
  natures : list string;
  token : option string }.

Record TopLevelScore : Type := mkTopLevelScore { effective : N; tool : N }.

(** [Definition] ([Definition] is a keyword of Rocq). *)
Record Definition_ : Type := mkDefinition {
  coordinates : DefCoords;
  described : option Description;
  licensed : option License;
  files : list File;
  scores : TopLevelScore }.

(** ** definitions.rs: [impl Deserialize for Definition]

    [DefVisitor::visit_map] is generic over a serde [MapAccess]. An entry of
    the map access is a key and the value's deserializer; [next_value::<T>()]
    hands the value to [T::deserialize], so the value half of an entry is
    what that yields for each type the visitor asks for. These outcomes come
    from the derived [Deserialize] impls of the leaf records and are inputs
    here: the visitor is the code under study. *)
Record ValueDe : Type := mkValueDe {
  next_coords : result DefCoords DeError;
  next_description : result Description DeError;
  next_license : result License DeError;
  next_files : result (list File) DeError;
  next_scores : result TopLevelScore DeError }.

Definition MapAccess := list (MapKey * ValueDe).

(** [map.next_key::<&str>()] on an entry: a [&str] can only borrow from the
    input, so serde's [&str] visitor accepts a borrowed key and calls a
    copied one an invalid type ("invalid type: string, expected a borrowed
    string"). *)
Definition next_key_str (k : MapKey) : result string DeError :=
  match k with
  | Borrowed s => Ok s
  | Copied _ => Err (InvalidType "a borrowed string")
  end.

(** The locals of [visit_map]. *)
Record DefVisitState : Type := mkDefVisitState {
  st_coordinates : option DefCoords;
  st_described : option (option Description);
  st_licensed : option (option License);
  st_files : list File;
  st_scores : TopLevelScore }.

Definition DefVisitState_init : DefVisitState :=
  mkDefVisitState None None None [] (mkTopLevelScore 0 0).

(** The [while let Some(key) = map.next_key()?] loop. *)
Fixpoint visit_map_loop (st : DefVisitState) (map : MapAccess)
  : result DefVisitState DeError :=
  match map with
  | [] => Ok st
  | (k, v) :: rest =>
    let* key := next_key_str k in
    let '(mkDefVisitState c d l f s) := st in
    if String.eqb key "coordinates" then
      match c with
      | Some _ => Err (DuplicateField "coordinates")
      | None =>
        let* c' := next_coords v in
        visit_map_loop (mkDefVisitState (Some c') d l f s) rest
      end
    else if String.eqb key "described" then
      match d with
      | Some _ => Err (DuplicateField "described")
      | None =>
        (* Just disregard errors and set it to null *)
        let desc := match next_description v with Ok x => Some x | Err _ => None end in
        visit_map_loop (mkDefVisitState c (Some desc) l f s) rest
      end
    else if String.eqb key "licensed" then
      match l with
      | Some _ => Err (DuplicateField "licensed")
      | None =>
        let lic := match next_license v with Ok x => Some x | Err _ => None end in
        visit_map_loop (mkDefVisitState c d (Some lic) f s) rest
      end
    else if String.eqb key "files" then
      match f with
      | _ :: _ => Err (DuplicateField "files")
      | [] =>
        let* f' := next_files v in
        visit_map_loop (mkDefVisitState c d l f' s) rest
      end
    else if String.eqb key "scores" then
      let* s' := next_scores v in
      visit_map_loop (mkDefVisitState c d l f s') rest
    else (* just ignore unknown fields *)
      visit_map_loop st rest
  end.

(** After the loop: [coordinates], [described] and [licensed] must have been
    seen. *)
Definition DefVisitor_finish (st : DefVisitState) : result Definition_ DeError :=
  match st_coordinates st with
  | None => Err (MissingField "coordinates")
  | Some coordinates =>
    match st_described st with
    | None => Err (MissingField "described")
    | Some described =>
      match st_licensed st with
      | None => Err (MissingField "licensed")
      | Some licensed =>
        Ok (mkDefinition coordinates described licensed (st_files st) (st_scores st))
      end
    end
  end.

Definition DefVisitor_visit_map (map : MapAccess) : result Definition_ DeError :=
  let* st := visit_map_loop DefVisitState_init map in
  DefVisitor_finish st.

Section JsonDecoding.
(** The deserializers serde hands [next_value] for a JSON value. *)
Variable value_de : json -> ValueDe.

(** [Definition::deserialize] on a JSON value: [deserialize_struct] calls
    [visit_map] on an object; the visitor has no [visit_seq], so anything
    else is an invalid type. *)
Definition Definition_deserialize (j : json) : result Definition_ DeError :=
  match j with
  | JObject kvs => DefVisitor_visit_map (List.map (fun kv => (fst kv, value_de (snd kv))) kvs)
  | _ => Err (InvalidType "struct Definition")
  end.

End JsonDecoding.

(** ** definitions.rs: [get], the batch request builder *)

Definition ROOT_URI : string := "https://api.clearlydefined.io".

Record Request : Type := mkRequest {
  req_method : string;
  req_uri : string;
  req_headers : list (string * string);
  req_body : json }.

(** The request built for one chunk, its body the JSON array [req]. *)
Definition build_request (req : list json) : Request :=
  mkRequest "POST" (ROOT_URI ++ "/definitions")
            [("content-type", "application/json"); ("accept", "application/json")]
            (JArray req).

Section Get.
Context {SL : SemverLib}.

(** The [for coord in coordinates] loop: [requests] and [coords] are the two
    vectors of the source. *)
Fixpoint get_loop (chunk_size : nat) (requests : list (list json)) (coords : list json)
  (coordinates : list Coordinate) : list (list json) * list json :=
  match coordinates with
  | [] => (requests, coords)
  | coord :: rest =>
    let coords := (coords ++ [JString (Coordinate_format coord)])%list in
    if Nat.eqb (length coords) chunk_size
    then get_loop chunk_size (requests ++ [coords])%list [] rest
    else get_loop chunk_size requests coords rest
  end.

Definition get (chunk_size : nat) (coordinates : list Coordinate) : list Request :=
  let chunk_size := Nat.min chunk_size 1000 in
  let '(requests, coords) := get_loop chunk_size [] [] coordinates in
  let requests := match coords with [] => requests | _ => (requests ++ [coords])%list end in
  List.map build_request requests.

End Get.

(** The coordinate texts in a request body. *)
Definition body_strings (j : json) : list string :=
  match j with
  | JArray l => flat_map (fun x => match x with JString s => [s] | _ => [] end) l
  | _ => []
  end.

Definition body_length (j : json) : nat :=
  match j with JArray l => length l | _ => 0 end.

(** ** definitions.rs: [GetResponse]

    [RawGetResponse] flattens the body object into a [BTreeMap<String,
    Definition>]: the entries are visited in document order, each value is
    decoded as a [Definition], and [insert] keeps one value per key, the
    latest. The map is an association list sorted by [String.compare],
    which orders strings byte-wise like Rust's [Ord for String]. *)

Fixpoint btree_insert {V} (k : string) (v : V) (m : list (string * V)) : list (string * V) :=
  match m with
  | [] => [(k, v)]
  | (k', v') :: m' =>
    match String.compare k k' with
    | Lt => (k, v) :: m
    | Eq => (k, v) :: m'
    | Gt => (k', v') :: btree_insert k v m'
    end
  end.

(** [http::Response<B>]. *)
Record Response (B : Type) : Type := mkResponse { status : StatusCode; body : B }.
Arguments mkResponse {B} status body.
Arguments status {B} r.
Arguments body {B} r.

Section GetResponse.
Variable value_de : json -> ValueDe.

Fixpoint collect_items (acc : list (string * Definition_)) (kvs : list (string * json))
  : result (list (string * Definition_)) DeError :=
  match kvs with
  | [] => Ok acc
  | (k, v) :: rest =>
    let* d := Definition_deserialize value_de v in
    collect_items (btree_insert k d acc) rest
  end.

Definition RawGetResponse_deserialize (j : json)
  : result (list (string * Definition_)) DeError :=
  match j with
  | JObject kvs => collect_items [] (entries kvs)
  | _ => Err (InvalidType "struct RawGetResponse")
  end.

Record GetResponse : Type := mkGetResponse { definitions : list Definition_ }.

(** [serde_json::from_slice]'s reading of the body text. *)
Variable B : Type.
Variable parse_json : B -> result json DeError.

(** [impl TryFrom<http::Response<B>> for GetResponse]. *)
Definition GetResponse_try_from (response : Response B) : result GetResponse Error :=
  match parse_json (body response) with
  | Err e => Err (Json e)
  | Ok j =>
    match RawGetResponse_deserialize j with
    | Err e => Err (Json e)
    | Ok items => Ok (mkGetResponse (List.map snd items))
    end
  end.

End GetResponse.

(** ** lib.rs: [ApiResponse::try_from_parts] *)

(** [StatusCode::is_success]: 200 to 299. *)
Definition is_success (s : StatusCode) : bool := (200 <=? s)%N && (s <? 300)%N.

Definition try_from_parts {B Self} (try_from : Response B -> result Self Error)
  (resp : Response B) : result Self Error :=
  if is_success (status resp) then try_from resp
  else Err (HttpStatus (status resp)).

(** ** error.rs: [Display for Error]

    The [#[error(...)]] attributes give each variant a fixed text; none of
    them interpolates the payload, which stays reachable through
    [Error::source] only. *)
Definition Error_display (e : Error) : string :=
  match e with
  | Http _ => "HTTP error"
  | HttpStatus _ => "HTTP status"
  | Json _ => "JSON error"
  | Other _ => "other error"
  end.

(** ** lib.rs: the [from_str] helper behind [Deserialize for Shape / Provider]

    [d.deserialize_str(Vers)]: a JSON string reaches [visit_str], which runs
    [T::des] (that is [T::from_str]) and maps its [Error] through
    [de::Error::custom], i.e. to the error's [Display] text; any other JSON
    value is an invalid type for a visitor expecting a "string". *)
Definition de_from_str {T} (from_str : string -> result T Error) (j : json)
  : result T DeError :=
  match j with
  | JString value =>
    match from_str value with
    | Ok t => Ok t
    | Err e => Err (Custom (Error_display e))
    end
  | _ => Err (InvalidType "string")
  end.

Definition Shape_deserialize (j : json) : result Shape DeError := de_from_str Shape_from_str j.

Definition Provider_deserialize (j : json) : result Provider DeError :=
  de_from_str Provider_from_str j.

Section LeafDecoders.
Context {SL : SemverLib}.

(** [CoordVersion::deserialize]: [deserialize_any] with a visitor that only
    has [visit_str]; every other kind of JSON value falls to the visitor's
    default methods, an invalid type for the expected "version". *)
Definition CoordVersion_deserialize (j : json) : result CoordVersion DeError :=
  match j with
  | JString value => CoordVersion_visit_str value
  | _ => Err (InvalidType "version")
  end.

End LeafDecoders.

(** [String::deserialize]. *)
Definition String_deserialize (j : json) : result string DeError :=
  match j with
  | JString s => Ok s
  | _ => Err (InvalidType "a string")
  end.

(** Decimal rendering of an integer, as Rust's [{}] on [i64]/[u64]. *)
Definition dec_Z (z : Z) : string :=
  match z with
  | Zneg p => "-" ++ dec_N (Npos p)
  | _ => dec_N (Z.to_N z)
  end.

(** serde's [invalid_value] and [invalid_length] for [serde_json::Error]:
    [custom] messages. *)
Definition invalid_value_integer (z : Z) (expected : string) : DeError :=
  Custom ("invalid value: integer `" ++ dec_Z z ++ "`, expected " ++ expected).

Definition invalid_length (len : nat) (expected : string) : DeError :=
  Custom ("invalid length " ++ dec_N (N.of_nat len) ++ ", expected " ++ expected).

(** serde's [ExpectedInSeq]. *)
Definition expected_in_seq (count : nat) : string :=
  if Nat.eqb count 1 then "1 element in sequence"
  else dec_N (N.of_nat count) ++ " elements in sequence".

(** [u8::deserialize]. serde_json reads a JSON integer as a [u64] when it
    is in [0, 2^64), as an [i64] when it is in [-2^63, 0), and as an [f64]
    otherwise; serde's [u8] visitor accepts [u64] and [i64] values in
    [0, 255], calls anything else of those two an invalid value, and
    rejects a float or a non-number as an invalid type. *)
Definition u8_deserialize (j : json) : result N DeError :=
  match j with
  | JNumber z =>
    if (0 <=? z)%Z && (z <? 2 ^ 64)%Z then
      if (z <=? 255)%Z then Ok (Z.to_N z) else Err (invalid_value_integer z "u8")
    else if (- 2 ^ 63 <=? z)%Z && (z <? 0)%Z then Err (invalid_value_integer z "u8")
    else Err (InvalidType "u8")
  | _ => Err (InvalidType "u8")
  end.

(** ** definitions.rs: the derived [Deserialize] of [DefCoords] and
    [TopLevelScore]

    Inside a batch response every value comes from the content serde
    buffered for the flattened map, so [deserialize_struct] visits a map
    for an object, a sequence for an array, and calls anything else an
    invalid type. The derived [visit_map] reads the entries in order: a
    field seen twice is a duplicate-field error, a field's value goes to
    the field's type, an unknown key's value is skipped ([IgnoredAny]); at
    the end the fields are taken in declaration order, a missing one being
    a missing-field error. The derived [visit_seq] takes the fields in
    declaration order from the elements; the sequence access then requires
    that no element is left. *)

Section DerivedDecoders.
Context {SL : SemverLib}.

Record DefCoordsFields : Type := mkDefCoordsFields {
  f_type : option Shape;
  f_provider : option Provider;
  f_name : option string;
  f_revision : option CoordVersion }.

Fixpoint DefCoords_visit_map_loop (st : DefCoordsFields) (kvs : list (string * json))
  : result DefCoordsFields DeError :=
  match kvs with
  | [] => Ok st
  | (key, v) :: rest =>
    let '(mkDefCoordsFields t p n r) := st in
    if String.eqb key "type" then
      match t with
      | Some _ => Err (DuplicateField "type")
      | None => let* x := Shape_deserialize v in
                DefCoords_visit_map_loop (mkDefCoordsFields (Some x) p n r) rest
      end
    else if String.eqb key "provider" then
      match p with
      | Some _ => Err (DuplicateField "provider")
      | None => let* x := Provider_deserialize v in
                DefCoords_visit_map_loop (mkDefCoordsFields t (Some x) n r) rest
      end
    else if String.eqb key "name" then
      match n with
      | Some _ => Err (DuplicateField "name")
      | None => let* x := String_deserialize v in
                DefCoords_visit_map_loop (mkDefCoordsFields t p (Some x) r) rest
      end
    else if String.eqb key "revision" then
      match r with
      | Some _ => Err (DuplicateField "revision")
      | None => let* x := CoordVersion_deserialize v in
                DefCoords_visit_map_loop (mkDefCoordsFields t p n (Some x)) rest
      end
    else DefCoords_visit_map_loop st rest
  end.

Definition DefCoords_visit_map (kvs : list (string * json)) : result DefCoords DeError :=
  let* st := DefCoords_visit_map_loop (mkDefCoordsFields None None None None) kvs in
  match f_type st with
  | None => Err (MissingField "type")
  | Some t =>
    match f_provider st with
    | None => Err (MissingField "provider")
    | Some p =>
      match f_name st with
      | None => Err (MissingField "name")
      | Some n =>
        match f_revision st with
        | None => Err (MissingField "revision")
        | Some r => Ok (mkDefCoords t p n r)
        end
      end
    end
  end.

Definition DefCoords_expecting : string := "struct DefCoords with 4 elements".

Definition DefCoords_visit_seq (l : list json) : result DefCoords DeError :=
  match l with
  | [] => Err (invalid_length 0 DefCoords_expecting)
  | v0 :: l1 =>
    let* t := Shape_deserialize v0 in
    match l1 with
    | [] => Err (invalid_length 1 DefCoords_expecting)
    | v1 :: l2 =>
      let* p := Provider_deserialize v1 in
      match l2 with
      | [] => Err (invalid_length 2 DefCoords_expecting)
      | v2 :: l3 =>
        let* n := String_deserialize v2 in
        match l3 with
        | [] => Err (invalid_length 3 DefCoords_expecting)
        | v3 :: rest =>
          let* r := CoordVersion_deserialize v3 in
          match rest with
          | [] => Ok (mkDefCoords t p n r)
          | _ :: _ => Err (invalid_length (4 + length rest) (expected_in_seq 4))
          end
        end
      end
    end
  end.

Definition DefCoords_deserialize (j : json) : result DefCoords DeError :=
  match j with
  | JObject kvs => DefCoords_visit_map (entries kvs)
  | JArray l => DefCoords_visit_seq l
  | _ => Err (InvalidType "struct DefCoords")
  end.

End DerivedDecoders.

Fixpoint TopLevelScore_visit_map_loop (st : option N * option N) (kvs : list (string * json))
  : result (option N * option N) DeError :=
  match kvs with
  | [] => Ok st
  | (key, v) :: rest =>
    let '(e, t) := st in
    if String.eqb key "effective" then
      match e with
      | Some _ => Err (DuplicateField "effective")
      | None => let* x := u8_deserialize v in TopLevelScore_visit_map_loop (Some x, t) rest
      end
    else if String.eqb key "tool" then
      match t with
      | Some _ => Err (DuplicateField "tool")
      | None => let* x := u8_deserialize v in TopLevelScore_visit_map_loop (e, Some x) rest
      end
    else TopLevelScore_visit_map_loop st rest
  end.

Definition TopLevelScore_visit_map (kvs : list (string * json))
  : result TopLevelScore DeError :=
  let* st := TopLevelScore_visit_map_loop (None, None) kvs in
  match st with
  | (None, _) => Err (MissingField "effective")
  | (Some _, None) => Err (MissingField "tool")
  | (Some e, Some t) => Ok (mkTopLevelScore e t)
  end.

Definition TopLevelScore_expecting : string := "struct TopLevelScore with 2 elements".

Definition TopLevelScore_visit_seq (l : list json) : result TopLevelScore DeError :=
  match l with
  | [] => Err (invalid_length 0 TopLevelScore_expecting)
  | v0 :: l1 =>
    let* e := u8_deserialize v0 in
    match l1 with
    | [] => Err (invalid_length 1 TopLevelScore_expecting)
    | v1 :: rest =>
      let* t := u8_deserialize v1 in
      match rest with
      | [] => Ok (mkTopLevelScore e t)
      | _ :: _ => Err (invalid_length (2 + length rest) (expected_in_seq 2))
      end
    end
  end.

Definition TopLevelScore_deserialize (j : json) : result TopLevelScore DeError :=
  match j with
  | JObject kvs => TopLevelScore_visit_map (entries kvs)
  | JArray l => TopLevelScore_visit_seq l
  | _ => Err (InvalidType "struct TopLevelScore")
  end.

(** The deserializers [visit_map] is handed for a JSON value: the two
    above for [coordinates] and [scores]; those of [Description], [License]
    and [Vec<File>] (derived impls over [chrono] dates and nested records)
    are taken as given. *)
Definition value_de_of {SL : SemverLib}
  (desc_de : json -> result Description DeError)
  (lic_de : json -> result License DeError)
  (files_de : json -> result (list File) DeError) (j : json) : ValueDe :=
  mkValueDe (DefCoords_deserialize j) (desc_de j) (lic_de j) (files_de j)
            (TopLevelScore_deserialize j).

(** ** definitions.rs: [impl Display for DefCoords] *)
Definition DefCoords_display {SL : SemverLib} (d : DefCoords) : string :=
  Shape_as_str (dc_shape d) ++ "/" ++ Provider_as_str (dc_provider d) ++ "/" ++
  dc_name d ++ "/" ++ CoordVersion_display (dc_revision d).

(** ** serde_json: decoding straight from the text

    [serde_json::from_slice::<Definition>] reads a definition object from
    its text as it goes, with nothing buffered: a decoder that fails stops
    where it is, and whatever reads next starts from there. Only the batch
    path ([GetResponse::try_from]) goes through serde's buffered content,
    which the decoders above model.

    The text is taken as its tokens, whitespace dropped; the lexer's own
    errors (a bad escape, a bad literal) and the nesting limit of 128 are
    left out. A string token records whether its text had escapes
    ([Copied]) or not ([Borrowed]). [TInt] is an integer literal that
    serde_json reads as a [u64] or an [i64]; [TFloat] is any other number
    ([-0], a fraction, an exponent, an integer out of those ranges). *)
Inductive Token : Type :=
| TLBrace | TRBrace | TLBracket | TRBracket | TComma | TColon
| TStr (k : MapKey)
| TInt (z : Z)
| TFloat
| TTrue | TFalse | TNull.

(** serde_json's [ErrorCode]s met on this path. *)
Definition EofWhileParsingList : DeError := Syntax "EOF while parsing a list".
Definition EofWhileParsingObject : DeError := Syntax "EOF while parsing an object".
Definition EofWhileParsingValue : DeError := Syntax "EOF while parsing a value".
Definition ExpectedColon : DeError := Syntax "expected `:`".
Definition ExpectedListCommaOrEnd : DeError := Syntax "expected `,` or `]`".
Definition ExpectedObjectCommaOrEnd : DeError := Syntax "expected `,` or `}`".
Definition ExpectedSomeValue : DeError := Syntax "expected value".
Definition KeyMustBeAString : DeError := Syntax "key must be a string".
Definition TrailingCharacters : DeError := Syntax "trailing characters".
Definition TrailingComma : DeError := Syntax "trailing comma".

(** The loops below are given one round more than there are tokens left;
    each round reads at least one token, so this error is never met. *)
Definition OutOfFuel : DeError := Syntax "out of fuel".

(** The [Deserializer]'s position in the text, threaded through the
    decoders: a decoder returns its result and the tokens it left. *)
Definition De (A : Type) : Type := list Token -> result A DeError * list Token.

Definition de_ret {A} (a : A) : De A := fun ts => (Ok a, ts).
Definition de_fail {A} (e : DeError) : De A := fun ts => (Err e, ts).
Definition de_lift {A} (r : result A DeError) : De A := fun ts => (r, ts).

(** [?]: stop at the first error, where it happened. *)
Definition de_bind {A B} (m : De A) (k : A -> De B) : De B :=
  fun ts => match m ts with
            | (Ok a, ts') => k a ts'
            | (Err e, ts') => (Err e, ts')
            end.

Notation "'let!' x := m 'in' k" := (de_bind m (fun x => k))
  (at level 200, x name, m at level 100, k at level 200).

(** [Result::ok]: the error is dropped, the position is not restored. *)
Definition de_ok {A} (m : De A) : De (option A) :=
  fun ts => let '(r, ts') := m ts in
            (Ok (match r with Ok a => Some a | Err _ => None end), ts').

(** [match (ret, self.end_map()) { (Ok(ret), Ok(())) => Ok(ret),
    (Err(err), _) | (_, Err(err)) => Err(err) }]: the closing check runs
    after the visitor whatever its outcome; the first error wins. *)
Definition with_end {A} (r : result A DeError) (e : result unit DeError) : result A DeError :=
  match r, e with
  | Ok a, Ok _ => Ok a
  | Err x, _ => Err x
  | Ok _, Err x => Err x
  end.

(** [Deserializer::peek_invalid_type]: a scalar is read and called an
    invalid type; an array or an object is called one without being read. *)
Definition peek_invalid_type {A} (exp : string) : De A :=
  fun ts => match ts with
  | [] => (Err EofWhileParsingValue, ts)
  | (TNull | TTrue | TFalse | TInt _ | TFloat | TStr _) :: ts' => (Err (InvalidType exp), ts')
  | (TLBracket | TLBrace) :: _ => (Err (InvalidType exp), ts)
  | _ :: _ => (Err ExpectedSomeValue, ts)
  end.

(** [Deserializer::parse_object_colon]. *)
Definition parse_object_colon : De unit :=
  fun ts => match ts with
  | TColon :: ts' => (Ok tt, ts')
  | _ :: _ => (Err ExpectedColon, ts)
  | [] => (Err EofWhileParsingObject, ts)
  end.

(** [Deserializer::end_map]. *)
Definition end_map : De unit :=
  fun ts => match ts with
  | TRBrace :: ts' => (Ok tt, ts')
  | TComma :: _ => (Err TrailingComma, ts)
  | _ :: _ => (Err TrailingCharacters, ts)
  | [] => (Err EofWhileParsingObject, ts)
  end.

(** [Deserializer::end_seq]. *)
Definition end_seq : De unit :=
  fun ts => match ts with
  | TRBracket :: ts' => (Ok tt, ts')
  | TComma :: ts' =>
    match ts' with
    | TRBracket :: _ => (Err TrailingComma, ts')
    | _ => (Err TrailingCharacters, ts')
    end
  | _ :: _ => (Err TrailingCharacters, ts)
  | [] => (Err EofWhileParsingList, ts)
  end.

(** [MapAccess::next_key_seed] with its [first] flag: the key itself is
    read by the [MapKey] deserializer. *)
Definition sj_next_key (first : bool) : De (option MapKey) :=
  fun ts => match ts with
  | [] => (Err EofWhileParsingObject, ts)
  | TRBrace :: _ => (Ok None, ts)
  | TComma :: ts' =>
    if first then (Err KeyMustBeAString, ts) else
    match ts' with
    | TStr k :: ts'' => (Ok (Some k), ts'')
    | TRBrace :: _ => (Err TrailingComma, ts')
    | [] => (Err EofWhileParsingValue, ts')
    | _ :: _ => (Err KeyMustBeAString, ts')
    end
  | TStr k :: ts' => if first then (Ok (Some k), ts') else (Err ExpectedObjectCommaOrEnd, ts)
  | _ :: _ => if first then (Err KeyMustBeAString, ts) else (Err ExpectedObjectCommaOrEnd, ts)
  end.

(** [MapAccess::next_value_seed]. *)
Definition next_value {A} (d : De A) : De A := let! _ := parse_object_colon in d.

(** [SeqAccess::next_element_seed] with its [first] flag. *)
Definition sj_next_element {A} (first : bool) (d : De A) : De (option A) :=
  fun ts => match ts with
  | [] => (Err EofWhileParsingList, ts)
  | TRBracket :: _ => (Ok None, ts)
  | TComma :: ts' =>
    if first then (let! x := d in de_ret (Some x)) ts else
    match ts' with
    | TRBracket :: _ => (Err TrailingComma, ts')
    | [] => (Err EofWhileParsingValue, ts')
    | _ :: _ => (let! x := d in de_ret (Some x)) ts'
    end
  | _ :: _ => if first then (let! x := d in de_ret (Some x)) ts else (Err ExpectedListCommaOrEnd, ts)
  end.

(** [Deserializer::ignore_value], behind [IgnoredAny]: an iterative walk
    over the value with a stack of the open arrays and objects ([scratch],
    its top being [enclosing]). *)
Inductive frame : Type := FSeq | FMap.

Definition frame_eof (f : frame) : DeError :=
  match f with FSeq => EofWhileParsingList | FMap => EofWhileParsingObject end.

Definition frame_comma_or_end (f : frame) : DeError :=
  match f with FSeq => ExpectedListCommaOrEnd | FMap => ExpectedObjectCommaOrEnd end.

Definition closes (f : frame) (t : Token) : bool :=
  match f, t with FSeq, TRBracket => true | FMap, TRBrace => true | _, _ => false end.

(** The inner [loop] after a value or an opening bracket: [Ok None] when
    the whole value has been read, [Ok (Some (frame, outer))] when the
    next value of [frame] follows. *)
Fixpoint ignore_close (accept_comma : bool) (f : frame) (outer : list frame) (ts : list Token)
  : result (option (frame * list frame)) DeError * list Token :=
  match ts with
  | [] => (Err (frame_eof f), ts)
  | t :: ts' =>
    match t with
    | TComma => if accept_comma then (Ok (Some (f, outer)), ts')
                else (Ok (Some (f, outer)), ts)
    | _ =>
      if closes f t then
        match outer with
        | [] => (Ok None, ts')
        | f' :: outer' => ignore_close true f' outer' ts'
        end
      else if accept_comma then (Err (frame_comma_or_end f), ts)
      else (Ok (Some (f, outer)), ts)
    end
  end.

(** In an object, the next value comes after a key and a colon. *)
Definition ignore_key (f : frame) : De unit :=
  match f with
  | FSeq => de_ret tt
  | FMap => fun ts =>
    match ts with
    | TStr _ :: ts' =>
      match ts' with
      | TColon :: ts'' => (Ok tt, ts'')
      | _ :: _ => (Err ExpectedColon, ts')
      | [] => (Err EofWhileParsingObject, ts')
      end
    | _ :: _ => (Err KeyMustBeAString, ts)
    | [] => (Err EofWhileParsingObject, ts)
    end
  end.

Fixpoint ignore_loop (fuel : nat) (frames : list frame) : De unit :=
  match fuel with
  | O => de_fail OutOfFuel
  | S fuel' => fun ts =>
    let step :=
      match ts with
      | [] => None
      | TLBracket :: ts' => Some (ignore_close false FSeq frames ts')
      | TLBrace :: ts' => Some (ignore_close false FMap frames ts')
      | (TRBrace | TRBracket | TComma | TColon) :: _ => None
      | _ :: ts' =>
        match frames with
        | [] => Some (Ok None, ts')
        | f :: outer => Some (ignore_close true f outer ts')
        end
      end in
    match step with
    | None => (Err (match ts with [] => EofWhileParsingValue | _ => ExpectedSomeValue end), ts)
    | Some (Err e, ts1) => (Err e, ts1)
    | Some (Ok None, ts1) => (Ok tt, ts1)
    | Some (Ok (Some (f, outer)), ts1) =>
      (let! _ := ignore_key f in ignore_loop fuel' (f :: outer)) ts1
    end
  end.

Definition ignore_value : De unit := fun ts => ignore_loop (S (length ts)) [] ts.

(** *** Leaf decoders on the text *)

(** [deserialize_str] with a visitor expecting [exp] and taking the text. *)
Definition str_de {A} (exp : string) (visit : string -> result A DeError) : De A :=
  fun ts => match ts with
  | TStr k :: ts' => (visit (key_str k), ts')
  | _ => peek_invalid_type exp ts
  end.

Definition String_de : De string := str_de "a string" (fun s => Ok s).

(** The [from_str] helper of lib.rs behind [Shape] and [Provider]. *)
Definition from_str_de {T} (from_str : string -> result T Error) : De T :=
  str_de "string" (fun s => de_from_str from_str (JString s)).

(** [u32::deserialize]: as [u8_deserialize] with the bound of a [u32]. *)
Definition u32_deserialize (j : json) : result N DeError :=
  match j with
  | JNumber z =>
    if (0 <=? z)%Z && (z <? 2 ^ 64)%Z then
      if (z <=? 4294967295)%Z then Ok (Z.to_N z) else Err (invalid_value_integer z "u32")
    else if (- 2 ^ 63 <=? z)%Z && (z <? 0)%Z then Err (invalid_value_integer z "u32")
    else Err (InvalidType "u32")
  | _ => Err (InvalidType "u32")
  end.

(** [deserialize_u8] / [deserialize_u32]: a number is read and handed to
    the visitor (a float being an invalid type); anything else is an
    invalid type. *)
Definition uint_de (exp : string) (dec : json -> result N DeError) : De N :=
  fun ts => match ts with
  | TInt z :: ts' => (dec (JNumber z), ts')
  | TFloat :: ts' => (Err (InvalidType exp), ts')
  | _ => peek_invalid_type exp ts
  end.

Definition u8_de : De N := uint_de "u8" u8_deserialize.
Definition u32_de : De N := uint_de "u32" u32_deserialize.

(** [deserialize_option]: [null] is [None], anything else goes to [T]. *)
Definition Option_de {A} (d : De A) : De (option A) :=
  fun ts => match ts with
  | TNull :: ts' => (Ok None, ts')
  | _ => (let! x := d in de_ret (Some x)) ts
  end.

Fixpoint seq_loop {A} (fuel : nat) (first : bool) (d : De A) (acc : list A) : De (list A) :=
  match fuel with
  | O => de_fail OutOfFuel
  | S fuel' =>
    let! o := sj_next_element first d in
    match o with
    | None => de_ret (List.rev acc)
    | Some x => seq_loop fuel' false d (x :: acc)
    end
  end.

(** [Vec::<T>::deserialize]: [deserialize_seq], the elements in order,
    then [end_seq]. *)
Definition Vec_de {A} (d : De A) : De (list A) :=
  fun ts => match ts with
  | TLBracket :: ts' =>
    let '(r, ts1) := seq_loop (S (length ts')) true d [] ts' in
    let '(e, ts2) := end_seq ts1 in
    (with_end r e, ts2)
  | _ => peek_invalid_type "a sequence" ts
  end.

Fixpoint map_loop {V} (fuel : nat) (first : bool) (d : De V) (acc : list (string * V))
  : De (list (string * V)) :=
  match fuel with
  | O => de_fail OutOfFuel
  | S fuel' =>
    let! ko := sj_next_key first in
    match ko with
    | None => de_ret acc
    | Some k => let! v := next_value d in map_loop fuel' false d (btree_insert (key_str k) v acc)
    end
  end.

(** [BTreeMap::<String, V>::deserialize]: [deserialize_map], each entry
    inserted in order, then [end_map]. *)
Definition BTreeMap_de {V} (d : De V) : De (list (string * V)) :=
  fun ts => match ts with
  | TLBrace :: ts' =>
    let '(r, ts1) := map_loop (S (length ts')) true d [] ts' in
    let '(e, ts2) := end_map ts1 in
    (with_end r e, ts2)
  | _ => peek_invalid_type "a map" ts
  end.

(** [chrono::NaiveDate]'s [FromStr]: chrono is a dependency, taken as a
    class; its errors are [ParseError]'s [Display] text. *)
Class DateLib : Type := { date_parse : string -> result NaiveDate string }.

(** [NaiveDate::deserialize]: [deserialize_str] with a visitor expecting
    "a formatted date string", a parse error becoming [custom]. *)
Definition NaiveDate_de {DL : DateLib} : De NaiveDate :=
  str_de "a formatted date string"
    (fun s => match date_parse s with Ok d => Ok d | Err m => Err (Custom m) end).

(** A reference implementation of the date parser, for concrete runs: it
    reads [YYYY-MM-DD] with a four-digit year, as the service writes
    them. *)
Definition digit_val (a : ascii) : option nat :=
  if is_digit a then Some (nat_of_ascii a - 48) else None.

Fixpoint digits_val (s : string) (acc : nat) : option nat :=
  match s with
  | EmptyString => Some acc
  | String a s' =>
    match digit_val a with Some v => digits_val s' (acc * 10 + v) | None => None end
  end.

Definition is_leap (y : nat) : bool :=
  (Nat.eqb (y mod 4) 0 && negb (Nat.eqb (y mod 100) 0)) || Nat.eqb (y mod 400) 0.

Definition month_days (y m : nat) : nat :=
  match m with
  | 2 => if is_leap y then 29 else 28
  | 4 | 6 | 9 | 11 => 30
  | _ => 31
  end.

Definition date_iso_parse (s : string) : result NaiveDate string :=
  if negb (Nat.eqb (String.length s) 10) then Err "input contains invalid characters" else
  match split_on "-" s with
  | [ys; ms; ds] =>
    match digits_val ys 0, digits_val ms 0, digits_val ds 0 with
    | Some y, Some m, Some d =>
      if Nat.eqb (String.length ys) 4 && Nat.eqb (String.length ms) 2 then
        if Nat.leb 1 m && Nat.leb m 12 && Nat.leb 1 d && Nat.leb d (month_days y m)
        then Ok (mkNaiveDate (Z.of_nat y) (N.of_nat m) (N.of_nat d))
        else Err "input is out of range"
      else Err "input contains invalid characters"
    | _, _, _ => Err "input contains invalid characters"
    end
  | _ => Err "input contains invalid characters"
  end.

#[global] Instance DateIso : DateLib := { date_parse := date_iso_parse }.

Section TextDecoders.
Context {SL : SemverLib} {DL : DateLib}.

(** [CoordVersion::deserialize]: [deserialize_any] with a visitor that
    only has [visit_str]. A scalar is read and is an invalid type; an
    array or an object is entered, called an invalid type by the visitor's
    default [visit_seq] / [visit_map], and its closing checked. *)
Definition CoordVersion_de : De CoordVersion :=
  fun ts => match ts with
  | TStr k :: ts' => (CoordVersion_visit_str (key_str k), ts')
  | (TNull | TTrue | TFalse | TInt _ | TFloat) :: ts' => (Err (InvalidType "version"), ts')
  | TLBracket :: ts' => let '(e, ts2) := end_seq ts' in (with_end (Err (InvalidType "version")) e, ts2)
  | TLBrace :: ts' => let '(e, ts2) := end_map ts' in (with_end (Err (InvalidType "version")) e, ts2)
  | [] => (Err EofWhileParsingValue, ts)
  | _ :: _ => (Err ExpectedSomeValue, ts)
  end.

(** *** The derived [Deserialize] of a struct, on the text

    [#[derive(Deserialize)]] on a struct expands to a visitor with a
    [visit_map] and a [visit_seq], handed to [deserialize_struct]. The
    fields' locals are an [Option] each; here they are a right-nested
    tuple [option A1 * (option A2 * ... * unit)], one [Field] per
    position: its name, whether its local is set, reading its value into
    the local, and its [#[serde(default)]] if any. *)
Record Field (St : Type) : Type := mkField {
  fld_name : string;
  fld_seen : St -> bool;
  fld_read : St -> De St;
  fld_default : option (St -> St) }.
Arguments mkField {St}.
Arguments fld_name {St}.
Arguments fld_seen {St}.
Arguments fld_read {St}.
Arguments fld_default {St}.

(** The first field of the tuple, decoded by [d]. *)
Definition here {A R} (name : string) (d : De A) (dflt : option A) : Field (option A * R) :=
  mkField name
    (fun st => match fst st with Some _ => true | None => false end)
    (fun st => let! x := d in de_ret (Some x, snd st))
    (match dflt with Some a => Some (fun st => (Some a, snd st)) | None => None end).

(** A field further along the tuple. *)
Definition there {A R} (f : Field R) : Field (A * R) :=
  mkField (fld_name f)
    (fun st => fld_seen f (snd st))
    (fun st => let! r := fld_read f (snd st) in de_ret (fst st, r))
    (match fld_default f with Some g => Some (fun st => (fst st, g (snd st))) | None => None end).

Fixpoint find_field {St} (key : string) (fs : list (Field St)) : option (Field St) :=
  match fs with
  | [] => None
  | f :: fs' => if String.eqb key (fld_name f) then Some f else find_field key fs'
  end.

(** The derived [visit_map]: a field seen before is a duplicate, checked
    before its value is read; an unknown key's value is read as
    [IgnoredAny]. *)
Fixpoint struct_map_loop {St} (fields : list (Field St)) (fuel : nat) (first : bool) (st : St)
  : De St :=
  match fuel with
  | O => de_fail OutOfFuel
  | S fuel' =>
    let! ko := sj_next_key first in
    match ko with
    | None => de_ret st
    | Some k =>
      match find_field (key_str k) fields with
      | Some f =>
        if fld_seen f st then de_fail (DuplicateField (fld_name f))
        else let! st' := next_value (fld_read f st) in struct_map_loop fields fuel' false st'
      | None => let! _ := next_value ignore_value in struct_map_loop fields fuel' false st
      end
    end
  end.

(** The derived [visit_seq]: the fields in order from the elements; a
    missing element is an invalid length [i], unless the field has a
    default. *)
Fixpoint struct_seq_loop {St} (expecting : string) (fields : list (Field St)) (i : nat)
  (first : bool) (st : St) : De St :=
  match fields with
  | [] => de_ret st
  | f :: fs =>
    let! o := sj_next_element first (fld_read f st) in
    match o with
    | Some st' => struct_seq_loop expecting fs (S i) false st'
    | None =>
      match fld_default f with
      | Some dflt => struct_seq_loop expecting fs (S i) first (dflt st)
      | None => de_fail (invalid_length i expecting)
      end
    end
  end.

(** [Deserializer::deserialize_struct]: an array goes to [visit_seq], an
    object to [visit_map], each followed by its closing check; anything
    else is an invalid type. *)
Definition sj_deserialize_struct {A} (exp : string) (visit_seq visit_map : De A) : De A :=
  fun ts => match ts with
  | TLBracket :: ts' =>
    let '(r, ts1) := visit_seq ts' in
    let '(e, ts2) := end_seq ts1 in
    (with_end r e, ts2)
  | TLBrace :: ts' =>
    let '(r, ts1) := visit_map ts' in
    let '(e, ts2) := end_map ts1 in
    (with_end r e, ts2)
  | _ => peek_invalid_type exp ts
  end.

(** The derived visitor's [expecting] for [visit_seq]. *)
Definition struct_expecting (name : string) (n : nat) : string :=
  "struct " ++ name ++ " with " ++ dec_N (N.of_nat n) ++
  (if Nat.eqb n 1 then " element" else " elements").

(** [#[derive(Deserialize)]] of struct [name]: after either visit, the
    locals are turned into the value by [finish], a missing field being
    an error in declaration order. *)
Definition derive_struct {St R} (name : string) (fields : list (Field St)) (init : St)
  (finish : St -> result R DeError) : De R :=
  sj_deserialize_struct ("struct " ++ name)
    (let! st := struct_seq_loop (struct_expecting name (length fields)) fields 0 true init in
     de_lift (finish st))
    (fun ts => (let! st := struct_map_loop fields (S (length ts)) true init in
                de_lift (finish st)) ts).

(** A field without a default: missing is an error. *)
Definition req {A} (name : string) (o : option A) : result A DeError :=
  match o with Some a => Ok a | None => Err (MissingField name) end.

(** An [Option] field: missing is [None]. *)
Definition opt {A} (o : option (option A)) : option A :=
  match o with Some a => a | None => None end.

(** A [#[serde(default)]] field. *)
Definition dflt {A} (d : A) (o : option A) : A :=
  match o with Some a => a | None => d end.

Definition Hashes_de : De Hashes :=
  derive_struct "Hashes"
    [here "sha1" String_de None; there (here "sha256" (Option_de String_de) None)]
    (None, (None, tt))
    (fun '(a, (b, _)) => let* a := req "sha1" a in Ok (mkHashes a (opt b))).

Definition Scores_de : De Scores :=
  derive_struct "Scores"
    [here "total" u32_de None; there (here "date" u32_de None);
     there (there (here "source" u32_de None))]
    (None, (None, (None, tt)))
    (fun '(a, (b, (c, _))) =>
       let* a := req "total" a in let* b := req "date" b in let* c := req "source" c in
       Ok (mkScores a b c)).

Definition SourceLocation_de : De SourceLocation :=
  derive_struct "SourceLocation"
    [here "type" String_de None; there (here "provider" String_de None);
     there (there (here "namespace" String_de None));
     there (there (there (here "name" String_de None)));
     there (there (there (there (here "revision" String_de None))));
     there (there (there (there (there (here "url" String_de None)))))]
    (None, (None, (None, (None, (None, (None, tt))))))
    (fun '(a, (b, (c, (d, (e, (f, _)))))) =>
       let* a := req "type" a in let* b := req "provider" b in
       let* c := req "namespace" c in let* d := req "name" d in
       let* e := req "revision" e in let* f := req "url" f in
       Ok (mkSourceLocation a b c d e f)).

(** [#[serde(rename_all = "camelCase")]]. *)
Definition Description_de : De Description :=
  derive_struct "Description"
    [here "releaseDate" NaiveDate_de None;
     there (here "sourceLocation" (Option_de SourceLocation_de) None);
     there (there (here "projectWebsite" (Option_de String_de) None));
     there (there (there (here "urls" (BTreeMap_de String_de) None)));
     there (there (there (there (here "hashes" Hashes_de None))));
     there (there (there (there (there (here "files" u32_de None)))));
     there (there (there (there (there (there (here "tools" (Vec_de String_de) None))))));
     there (there (there (there (there (there (there (here "toolScore" Scores_de None)))))));
     there (there (there (there (there (there (there (there (here "score" Scores_de None))))))))]
    (None, (None, (None, (None, (None, (None, (None, (None, (None, tt)))))))))
    (fun '(a, (b, (c, (d, (e, (f, (g, (h, (i, _))))))))) =>
       let* a := req "releaseDate" a in
       let* d := req "urls" d in let* e := req "hashes" e in let* f := req "files" f in
       let* g := req "tools" g in let* h := req "toolScore" h in let* i := req "score" i in
       Ok (mkDescription a (opt b) (opt c) d e f g h i)).

Definition LicenseScore_de : De LicenseScore :=
  derive_struct "LicenseScore"
    [here "total" u32_de None; there (here "declared" u32_de None);
     there (there (here "discovered" u32_de None));
     there (there (there (here "consistency" u32_de None)));
     there (there (there (there (here "spdx" u32_de None))));
     there (there (there (there (there (here "texts" u32_de None)))))]
    (None, (None, (None, (None, (None, (None, tt))))))
    (fun '(a, (b, (c, (d, (e, (f, _)))))) =>
       let* a := req "total" a in let* b := req "declared" b in
       let* c := req "discovered" c in let* d := req "consistency" d in
       let* e := req "spdx" e in let* f := req "texts" f in
       Ok (mkLicenseScore a b c d e f)).

Definition Attribution_de : De Attribution :=
  derive_struct "Attribution"
    [here "unknown" u32_de None; there (here "parties" (Vec_de String_de) (Some []))]
    (None, (None, tt))
    (fun '(a, (b, _)) => let* a := req "unknown" a in Ok (mkAttribution a (dflt [] b))).

Definition Discovered_de : De Discovered :=
  derive_struct "Discovered"
    [here "unknown" u32_de None; there (here "expressions" (Vec_de String_de) None)]
    (None, (None, tt))
    (fun '(a, (b, _)) =>
       let* a := req "unknown" a in let* b := req "expressions" b in Ok (mkDiscovered a b)).

Definition Facet_de : De Facet :=
  derive_struct "Facet"
    [here "attribution" Attribution_de None; there (here "discovered" Discovered_de None);
     there (there (here "files" u32_de None))]
    (None, (None, (None, tt)))
    (fun '(a, (b, (c, _))) =>
       let* a := req "attribution" a in let* b := req "discovered" b in
       let* c := req "files" c in Ok (mkFacet a b c)).

Definition Facets_de : De Facets :=
  derive_struct "Facets" [here "core" Facet_de None] (None, tt)
    (fun '(a, _) => let* a := req "core" a in Ok (mkFacets a)).

(** [#[serde(rename_all = "camelCase")]]. *)
Definition License_de : De License :=
  derive_struct "License"
    [here "declared" String_de None; there (here "facets" Facets_de None);
     there (there (here "toolScore" LicenseScore_de None));
     there (there (there (here "score" LicenseScore_de None)))]
    (None, (None, (None, (None, tt))))
    (fun '(a, (b, (c, (d, _)))) =>
       let* a := req "declared" a in let* b := req "facets" b in
       let* c := req "toolScore" c in let* d := req "score" d in
       Ok (mkLicense a b c d)).

Definition File_de : De File :=
  derive_struct "File"
    [here "path" String_de None; there (here "hashes" (Option_de Hashes_de) None);
     there (there (here "license" (Option_de String_de) None));
     there (there (there (here "attributions" (Vec_de String_de) (Some []))));
     there (there (there (there (here "natures" (Vec_de String_de) (Some [])))));
     there (there (there (there (there (here "token" (Option_de String_de) None)))))]
    (None, (None, (None, (None, (None, (None, tt))))))
    (fun '(a, (b, (c, (d, (e, (f, _)))))) =>
       let* a := req "path" a in
       Ok (mkFile a (opt b) (opt c) (dflt [] d) (dflt [] e) (opt f))).

Definition TopLevelScore_de : De TopLevelScore :=
  derive_struct "TopLevelScore"
    [here "effective" u8_de None; there (here "tool" u8_de None)]
    (None, (None, tt))
    (fun '(a, (b, _)) =>
       let* a := req "effective" a in let* b := req "tool" b in Ok (mkTopLevelScore a b)).

(** [#[serde(rename = "type")]] on [shape]. *)
Definition DefCoords_de : De DefCoords :=
  derive_struct "DefCoords"
    [here "type" (from_str_de Shape_from_str) None;
     there (here "provider" (from_str_de Provider_from_str) None);
     there (there (here "name" String_de None));
     there (there (there (here "revision" CoordVersion_de None)))]
    (None, (None, (None, (None, tt))))
    (fun '(a, (b, (c, (d, _)))) =>
       let* a := req "type" a in let* b := req "provider" b in
       let* c := req "name" c in let* d := req "revision" d in
       Ok (mkDefCoords a b c d)).

(** *** [impl Deserialize for Definition], on the text

    The [while let Some(key) = map.next_key()?] loop of [visit_map], with
    serde_json's [MapAccess]: the key is a [&str], the value is read by
    [next_value] only in the branches that call it. [described] and
    [licensed] take [next_value().ok()]. *)
Fixpoint DefVisitor_map_loop (fuel : nat) (first : bool) (st : DefVisitState)
  : De DefVisitState :=
  match fuel with
  | O => de_fail OutOfFuel
  | S fuel' =>
    let! ko := sj_next_key first in
    match ko with
    | None => de_ret st
    | Some k =>
      let! key := de_lift (next_key_str k) in
      let '(mkDefVisitState c d l f s) := st in
      if String.eqb key "coordinates" then
        match c with
        | Some _ => de_fail (DuplicateField "coordinates")
        | None =>
          let! c' := next_value DefCoords_de in
          DefVisitor_map_loop fuel' false (mkDefVisitState (Some c') d l f s)
        end
      else if String.eqb key "described" then
        match d with
        | Some _ => de_fail (DuplicateField "described")
        | None =>
          (* Just disregard errors and set it to null *)
          let! desc := de_ok (next_value Description_de) in
          DefVisitor_map_loop fuel' false (mkDefVisitState c (Some desc) l f s)
        end
      else if String.eqb key "licensed" then
        match l with
        | Some _ => de_fail (DuplicateField "licensed")
        | None =>
          let! lic := de_ok (next_value License_de) in
          DefVisitor_map_loop fuel' false (mkDefVisitState c d (Some lic) f s)
        end
      else if String.eqb key "files" then
        match f with
        | _ :: _ => de_fail (DuplicateField "files")
        | [] =>
          let! f' := next_value (Vec_de File_de) in
          DefVisitor_map_loop fuel' false (mkDefVisitState c d l f' s)
        end
      else if String.eqb key "scores" then
        let! s' := next_value TopLevelScore_de in
        DefVisitor_map_loop fuel' false (mkDefVisitState c d l f s')
      else (* just ignore unknown fields *)
        DefVisitor_map_loop fuel' false st
    end
  end.

(** [deserializer.deserialize_struct("Definition", FIELDS, DefVisitor)]:
    the visitor has no [visit_seq], so an array is an invalid type. *)
Definition Definition_de : De Definition_ :=
  sj_deserialize_struct "struct Definition"
    (de_fail (InvalidType "struct Definition"))
    (fun ts => (let! st := DefVisitor_map_loop (S (length ts)) true DefVisitState_init in
                de_lift (DefVisitor_finish st)) ts).

End TextDecoders.

(** [serde_json::from_slice]: the value, then nothing but whitespace. *)
Definition from_tokens {A} (d : De A) (ts : list Token) : result A DeError :=
  match d ts with
  | (Ok a, []) => Ok a
  | (Ok _, _ :: _) => Err TrailingCharacters
  | (Err e, _) => Err e
  end.

(** ** Helpers of the proofs *)

(** The five positional segments and the optional [pr/<number>] pair. *)
Definition coord_segments {SL : SemverLib} {T} `{Coord T} (c : T) : list string :=
  [Shape_as_str (coord_shape c); Provider_as_str (coord_provider c);
   match coord_namespace c with Some ns => ns | None => "-" end;
   coord_name c; CoordVersion_display (coord_version c)] ++
  match coord_curation_pr c with Some pr => ["pr"; dec_N pr] | None => [] end.

Definition rmap {A B E} (f : A -> B) (r : result A E) : result B E :=
  match r with Ok a => Ok (f a) | Err e => Err e end.

Definition set_described (o : option (option Description)) (st : DefVisitState) : DefVisitState :=
  mkDefVisitState (st_coordinates st) o (st_licensed st) (st_files st) (st_scores st).

Definition set_licensed (o : option (option License)) (st : DefVisitState) : DefVisitState :=
  mkDefVisitState (st_coordinates st) (st_described st) o (st_files st) (st_scores st).

Definition with_described (d : Definition_) (o : option Description) : Definition_ :=
  mkDefinition (coordinates d) o (licensed d) (files d) (scores d).

Definition with_licensed (d : Definition_) (o : option License) : Definition_ :=
  mkDefinition (coordinates d) (described d) o (files d) (scores d).

(** [BTreeMap]'s order on its keys. *)
Definition key_lt {V} (a b : string * V) : Prop := String.compare (fst a) (fst b) = Lt.

(** *** Concrete map-access entries

    What the deserializers of the leaf records give for a few JSON values. *)

Definition coords_myrepo : DefCoords := mkDefCoords Git Github "myrepo" (Any "abcdef").

(** [{"type": "git", "provider": "github", "name": "myrepo", "revision": "abcdef"}]. *)
Definition vd_coords_myrepo : ValueDe :=
  mkValueDe (Ok coords_myrepo)
            (Err (Custom "missing field `releaseDate`"))
            (Err (Custom "missing field `declared`"))
            (Err (InvalidType "a sequence"))
            (Err (Custom "missing field `effective`")).

(** A scalar ([null], a number, a string): no record and no sequence. *)
Definition vd_scalar (what : string) : ValueDe :=
  mkValueDe (Err (InvalidType what)) (Err (InvalidType what)) (Err (InvalidType what))
            (Err (InvalidType what)) (Err (InvalidType what)).

(** [{"effective": e, "tool": t}]. *)
Definition vd_scores (e t : N) : ValueDe :=
  mkValueDe (Err (Custom "missing field `type`"))
            (Err (Custom "missing field `releaseDate`"))
            (Err (Custom "missing field `declared`"))
            (Err (InvalidType "a sequence"))
            (Ok (mkTopLevelScore e t)).

(** [[]]: the empty sequence of files; a record read from it lacks fields. *)
Definition vd_empty_array : ValueDe :=
  mkValueDe (Err (Custom "invalid length 0"))
            (Err (Custom "invalid length 0"))
            (Err (Custom "invalid length 0"))
            (Ok [])
            (Err (Custom "invalid length 0")).

(** *** Looking up the keys of a JSON object *)

(** The value of the first entry with key [k]. *)
Fixpoint assoc_lookup {V} (k : string) (kvs : list (string * V)) : option V :=
  match kvs with
  | [] => None
  | (k', v) :: rest => if String.eqb k' k then Some v else assoc_lookup k rest
  end.

Definition is_ok {A E} (r : result A E) : bool :=
  match r with Ok _ => true | Err _ => false end.

Definition ok_of {A E} (r : result A E) : option A :=
  match r with Ok a => Some a | Err _ => None end.

Definition DefCoords_is_field (k : string) : bool :=
  String.eqb k "type" || String.eqb k "provider" || String.eqb k "name" ||
  String.eqb k "revision".

(** The value under a [DefCoords] field decodes with the field's type. *)
Definition DefCoords_field_ok {SL : SemverLib} (k : string) (v : json) : bool :=
  if String.eqb k "type" then is_ok (Shape_deserialize v)
  else if String.eqb k "provider" then is_ok (Provider_deserialize v)
  else if String.eqb k "name" then is_ok (String_deserialize v)
  else if String.eqb k "revision" then is_ok (CoordVersion_deserialize v)
  else true.

(** A field after reading the entries: the decoding of the first value
    under [k], or [d] when no entry has key [k]. *)
Definition lookup_or {A} (dec : json -> result A DeError) (k : string)
  (kvs : list (string * json)) (d : option A) : option A :=
  match assoc_lookup k kvs with Some v => ok_of (dec v) | None => d end.

Definition TopLevelScore_is_field (k : string) : bool :=
  String.eqb k "effective" || String.eqb k "tool".

Definition TopLevelScore_field_ok (k : string) (v : json) : bool :=
  if TopLevelScore_is_field k then is_ok (u8_deserialize v) else true.

(** The value under [k] passed through [g], or [d] when no entry has key [k]. *)
Definition lookup_with {V A} (k : string) (m : list (string * V)) (g : V -> A) (d : A) : A :=
  match assoc_lookup k m with Some v => g v | None => d end.

Definition Definition_is_field (k : string) : bool :=
  String.eqb k "coordinates" || String.eqb k "described" || String.eqb k "licensed" ||
  String.eqb k "files" || String.eqb k "scores".

(** The value under a field whose errors [visit_map] propagates decodes. *)
Definition Definition_field_ok (k : string) (v : ValueDe) : bool :=
  if String.eqb k "coordinates" then is_ok (next_coords v)
  else if String.eqb k "files" then is_ok (next_files v)
  else if String.eqb k "scores" then is_ok (next_scores v)
  else true.

(** *** Concrete coordinates and responses *)

Definition syn_coord : Coordinate := mkCoordinate Crate CratesIo None "syn" (Any "x") None.

Definition three_coords : list Coordinate :=
  [syn_coord;
   mkCoordinate Crate CratesIo None "quote" (Any "y") None;
   mkCoordinate Git Github (Some "org") "repo" (Any "z") (Some 7%N)].

(** A coordinate whose namespace is the text [-]. *)
Definition dash_namespace_coord : Coordinate :=
  mkCoordinate Crate CratesIo (Some "-") "syn" (Any "abc") None.

(** A coordinate with its namespace replaced. *)
Definition set_namespace (ns : option string) (c : Coordinate) : Coordinate :=
  mkCoordinate (shape c) (provider c) ns (name c) (version c) (curation_pr c).

(** The deserializers for the values of [demo_batch_response]: an object
    reads as the coordinates [coords_myrepo], anything else as a scalar. *)
Definition demo_value_de (j : json) : ValueDe :=
  match j with JObject _ => vd_coords_myrepo | _ => vd_scalar "null" end.

(** A definition of a component that was never harvested. *)
Definition demo_definition_json : json :=
  jobj [("coordinates", jobj []); ("described", JNull); ("licensed", JNull)].

(** A batch response body with keys out of order and one key repeated. *)
Definition demo_batch_response : Response json :=
  mkResponse 200%N (jobj [("git/github/-/zeta/1", demo_definition_json);
                             ("crate/cratesio/-/alpha/1", demo_definition_json);
                             ("git/github/-/zeta/1", demo_definition_json)]).

(** Occurrences of the character [c] in [s]. *)
Fixpoint count_char (c : ascii) (s : string) : nat :=
  match s with
  | EmptyString => 0
  | String a s' => (if Ascii.eqb a c then 1 else 0) + count_char c s'
  end.

(** Decoders of [Description], [License] and [Vec<File>] that reject every
    value. *)
Definition reject_all {A} (what : string) (_ : json) : result A DeError :=
  Err (InvalidType what).

Definition demo_coords_json (shape : string) (name : string) : json :=
  jobj [("type", JString shape); ("provider", JString "cratesio");
           ("name", JString name); ("revision", JString "1.0.0")].

Definition demo_definition_of (coords : json) : json :=
  jobj [("coordinates", coords); ("described", JNull); ("licensed", JNull)].

(** A batch response whose second definition has an unknown [type]. *)
Definition demo_bad_shape_response : Response json :=
  mkResponse 200%N
    (jobj [("crate/cratesio/-/a/1.0.0", demo_definition_of (demo_coords_json "crate" "a"));
              ("svn/cratesio/-/b/1.0.0", demo_definition_of (demo_coords_json "svn" "b"))]).

(** Definition objects as text, by their tokens. A key or a string
    written without escapes. *)
Definition tk (s : string) : Token := TStr (Borrowed s).

(** [{"type": "git", "provider": "github", "name": "myrepo",
    "revision": "abcdef"}]. *)
Definition toks_coords_myrepo : list Token :=
  [TLBrace; tk "type"; TColon; tk "git"; TComma; tk "provider"; TColon; tk "github"; TComma;
   tk "name"; TColon; tk "myrepo"; TComma; tk "revision"; TColon; tk "abcdef"; TRBrace].

(** [{"coordinates": <coords_myrepo>, "described": desc, "licensed": lic}]. *)
Definition toks_definition (desc lic : list Token) : list Token :=
  ([TLBrace; tk "coordinates"; TColon] ++ toks_coords_myrepo ++
   [TComma; tk "described"; TColon] ++ desc ++ [TComma; tk "licensed"; TColon] ++ lic ++
   [TRBrace])%list.

(** [{"releaseDate": 5, "x": 1}]: not a [Description], its first field
    having the wrong type. *)
Definition toks_bad_description : list Token :=
  [TLBrace; tk "releaseDate"; TColon; TInt 5; TComma; tk "x"; TColon; TInt 1; TRBrace].

(** A token that is a whole JSON value by itself. *)
Definition is_scalar (t : Token) : bool :=
  match t with TNull | TTrue | TFalse | TInt _ | TFloat | TStr _ => true | _ => false end.

(** * Properties *)

(** ** Reference semver and coordinate text *)

Example semver_std_1 :
  semver_std_parse "1.0.14" = Some (mkSemVer 1 0 14 "" "").
Proof. reflexivity. Qed.
Example semver_std_2 : semver_std_parse "01.0.0" = None.
Proof. reflexivity. Qed.
Example semver_std_3 :
  semver_std_parse "1.2.3-alpha.1+b-7" = Some (mkSemVer 1 2 3 "alpha.1" "b-7").
Proof. reflexivity. Qed.

Example parse_syn :
  Coordinate_parse "crate/cratesio/-/syn/1.0.14"
  = Ok (mkCoordinate Crate CratesIo None "syn" (Version (mkSemVer 1 0 14 "" "")) None).
Proof. reflexivity. Qed.
Example parse_pr :
  Coordinate_parse "git/github/myorg/myrepo/abcdef/pr/42"
  = Ok (mkCoordinate Git Github (Some "myorg") "myrepo" (Any "abcdef") (Some 42%N)).
Proof. reflexivity. Qed.
Example format_syn :
  Coordinate_format (mkCoordinate Crate CratesIo None "syn" (Version (mkSemVer 1 0 14 "" "")) None)
  = "crate/cratesio/-/syn/1.0.14".
Proof. reflexivity. Qed.

(** ** Shape and Provider *)

Lemma Shape_from_str_as_str (sh : Shape) : Shape_from_str (Shape_as_str sh) = Ok sh.
Proof. destruct sh; reflexivity. Qed.

Lemma Provider_from_str_as_str (p : Provider) : Provider_from_str (Provider_as_str p) = Ok p.
Proof. destruct p; reflexivity. Qed.

Lemma Shape_from_str_ok (s : string) (sh : Shape) :
  Shape_from_str s = Ok sh -> Shape_as_str sh = s.
Proof.
  unfold Shape_from_str.
  destruct (String.eqb_spec s "crate"); [intros [= <-]; now subst|].
  destruct (String.eqb_spec s "git"); [intros [= <-]; now subst|].
  discriminate.
Qed.

Lemma Provider_from_str_ok (s : string) (p : Provider) :
  Provider_from_str s = Ok p -> Provider_as_str p = s.
Proof.
  unfold Provider_from_str.
  destruct (String.eqb_spec s "cratesio"); [intros [= <-]; now subst|].
  destruct (String.eqb_spec s "github"); [intros [= <-]; now subst|].
  discriminate.
Qed.

(** C7: [Shape] and [Provider] parse exactly their lowercase names, case
    included; any other text is an [Error::Other] whose message quotes it. *)
Theorem Shape_Provider_from_str_exact (s : string) :
  (forall sh, Shape_from_str s = Ok sh <-> Shape_as_str sh = s) /\
  (forall e, Shape_from_str s = Err e -> e = Other ("unknown shape '" ++ s ++ "'")) /\
  (forall p, Provider_from_str s = Ok p <-> Provider_as_str p = s) /\
  (forall e, Provider_from_str s = Err e -> e = Other ("unknown provider '" ++ s ++ "'")).
Proof.
  split; [|split; [|split]].
  - intros sh; split; [apply Shape_from_str_ok|intros <-; apply Shape_from_str_as_str].
  - unfold Shape_from_str; intros e.
    destruct (String.eqb s "crate"); [discriminate|].
    destruct (String.eqb s "git"); [discriminate|].
    now intros [= <-].
  - intros p; split; [apply Provider_from_str_ok|intros <-; apply Provider_from_str_as_str].
  - unfold Provider_from_str; intros e.
    destruct (String.eqb s "cratesio"); [discriminate|].
    destruct (String.eqb s "github"); [discriminate|].
    now intros [= <-].
Qed.

(** ** Splitting and joining *)

Lemma str_app_assoc (x y z : string) : x ++ (y ++ z) = (x ++ y) ++ z.
Proof. induction x as [|a x IH]; simpl; [reflexivity|now rewrite IH]. Qed.

Lemma str_app_nil_r (x : string) : x ++ "" = x.
Proof. induction x as [|a x IH]; simpl; [reflexivity|now rewrite IH]. Qed.

Lemma split_on_nonnil (c : ascii) (s : string) : split_on c s <> [].
Proof.
  induction s as [|a s IH]; simpl; [discriminate|].
  destruct (Ascii.eqb a c); [discriminate|].
  destruct (split_on c s); discriminate.
Qed.

Lemma join_on_cons_char (c a : ascii) (x : string) (xs : list string) :
  join_on c (String a x :: xs) = String a (join_on c (x :: xs)).
Proof. destruct xs; reflexivity. Qed.

Lemma join_split (c : ascii) (s : string) : join_on c (split_on c s) = s.
Proof.
  induction s as [|a s IH]; [reflexivity|].
  cbn [split_on].
  destruct (Ascii.eqb_spec a c) as [->|Hne].
  - pose proof (split_on_nonnil c s) as Hn.
    destruct (split_on c s) as [|x xs]; [congruence|].
    change (join_on c (EmptyString :: x :: xs)) with (String c (join_on c (x :: xs))).
    now rewrite IH.
  - destruct (split_on c s) as [|x xs] eqn:E.
    + exfalso; exact (split_on_nonnil c s E).
    + rewrite join_on_cons_char; now rewrite IH.
Qed.

Lemma join_on_app (c : ascii) (xs ys : list string) :
  xs <> [] -> ys <> [] -> join_on c (xs ++ ys) = join_on c xs ++ String c (join_on c ys).
Proof.
  intros Hx Hy; induction xs as [|x xs IH]; [congruence|].
  destruct xs as [|x' xs].
  - simpl; destruct ys; [congruence|reflexivity].
  - change ((x :: x' :: xs) ++ ys)%list with (x :: ((x' :: xs) ++ ys))%list.
    change (join_on c (x :: ((x' :: xs) ++ ys))) with (x ++ String c (join_on c ((x' :: xs) ++ ys))).
    rewrite IH by discriminate.
    change (join_on c (x :: x' :: xs)) with (x ++ String c (join_on c (x' :: xs))).
    now rewrite <- str_app_assoc.
Qed.

Lemma split_no_char (c : ascii) (x : string) :
  no_char c x = true -> split_on c x = [x].
Proof.
  induction x as [|a x IH]; simpl; [reflexivity|].
  intros H; apply andb_prop in H as [Ha Hx].
  destruct (Ascii.eqb a c); [discriminate|].
  now rewrite IH.
Qed.

Lemma split_app_sep (c : ascii) (x rest : string) :
  no_char c x = true -> split_on c (x ++ String c rest) = x :: split_on c rest.
Proof.
  induction x as [|a x IH]; simpl.
  - now rewrite Ascii.eqb_refl.
  - intros H; apply andb_prop in H as [Ha Hx].
    destruct (Ascii.eqb a c); [discriminate|].
    now rewrite IH.
Qed.

Lemma split_join (c : ascii) (segs : list string) :
  segs <> [] -> Forall (fun x => no_char c x = true) segs ->
  split_on c (join_on c segs) = segs.
Proof.
  induction segs as [|x xs IH]; [congruence|].
  intros _ Hall; inversion Hall as [|? ? Hx Hxs]; subst.
  destruct xs as [|y ys].
  - now apply split_no_char.
  - change (join_on c (x :: y :: ys)) with (x ++ String c (join_on c (y :: ys))).
    rewrite split_app_sep by exact Hx.
    rewrite IH; [reflexivity|discriminate|exact Hxs].
Qed.

(** ** Decimal numbers *)

Lemma to_uint_nonnil (n : N) : N.to_uint n <> Nil.
Proof.
  intros E.
  pose proof (DecimalN.Unsigned.of_to n) as H; rewrite E in H; simpl in H.
  subst n; discriminate.
Qed.

Lemma dec_N_no_slash (n : N) : no_char "/" (dec_N n) = true.
Proof.
  unfold dec_N; induction (N.to_uint n); simpl; auto.
Qed.

Lemma parse_u32_dec_N (n : N) : (n <= 4294967295)%N -> parse_u32 (dec_N n) = Some n.
Proof.
  intros Hn.
  assert (Hd : forall d, d <> Nil ->
            parse_u32 (NilEmpty.string_of_uint d)
            = if (N.of_uint d <=? 4294967295)%N then Some (N.of_uint d) else None).
  { intros d Hnil; pose proof (NilEmpty.usu d) as Hu.
    destruct d; [congruence| ..]; unfold parse_u32;
      cbn [NilEmpty.string_of_uint] in Hu;
      cbn -[N.of_uint N.leb NilEmpty.uint_of_string]; rewrite Hu; reflexivity. }
  unfold dec_N; rewrite Hd by apply to_uint_nonnil.
  rewrite DecimalN.Unsigned.of_to.
  apply N.leb_le in Hn; now rewrite Hn.
Qed.

(** ** Formatting *)


Lemma CoordDisp_join {SL : SemverLib} {T} `{Coord T} (c : T) :
  CoordDisp c = join_on "/" (coord_segments c).
Proof.
  unfold CoordDisp, coord_segments.
  destruct (coord_curation_pr c); simpl; rewrite ?str_app_nil_r; reflexivity.
Qed.

(** C8: the text of any [Coord] value is its five segments joined by [/],
    namespace [-] when absent, followed by [/pr/<number>] exactly when a
    curation PR is present. *)
Theorem CoordDisp_spec {SL : SemverLib} {T} `{Coord T} (c : T) :
  let base := join_on "/"
      [Shape_as_str (coord_shape c); Provider_as_str (coord_provider c);
       match coord_namespace c with Some ns => ns | None => "-" end;
       coord_name c; CoordVersion_display (coord_version c)] in
  (coord_curation_pr c = None <-> CoordDisp c = base) /\
  (forall pr, coord_curation_pr c = Some pr <-> CoordDisp c = base ++ "/pr/" ++ dec_N pr).
Proof.
  intros base.
  assert (Hbase : CoordDisp c = base ++ match coord_curation_pr c with
                                          | Some pr => "/pr/" ++ dec_N pr | None => "" end).
  { rewrite CoordDisp_join; unfold coord_segments, base.
    destruct (coord_curation_pr c) as [p|].
    - rewrite join_on_app by discriminate; reflexivity.
    - now rewrite app_nil_r, str_app_nil_r. }
  assert (Hlen : forall s t, base ++ s = base ++ t -> s = t).
  { clear; induction base as [|a b IH]; simpl; [auto|].
    intros s t [= E]; now apply IH. }
  split.
  - split.
    + intros E; rewrite Hbase, E; apply str_app_nil_r.
    + rewrite Hbase; destruct (coord_curation_pr c); [|reflexivity].
      intros E; rewrite <- (str_app_nil_r base) in E at 2.
      apply Hlen in E; discriminate.
  - intros pr; split.
    + intros E; rewrite Hbase, E; reflexivity.
    + rewrite Hbase; destruct (coord_curation_pr c) as [p|].
      * intros E; apply Hlen in E; inversion E as [E'].
        unfold dec_N in E'.
        apply (f_equal NilEmpty.uint_of_string) in E'.
        rewrite !NilEmpty.usu in E'; inversion E' as [E''].
        apply (f_equal N.of_uint) in E''.
        rewrite !DecimalN.Unsigned.of_to in E''; now subst.
      * intros E; apply Hlen in E; discriminate.
Qed.

(** ** Versions *)

(** C4: reading a version string never fails; a string the semver parser
    accepts becomes [Version] and displays as that parser's canonical text,
    any other string becomes [Any] and displays as itself. *)
Theorem CoordVersion_visit_str_spec {SL : SemverLib} (s : string) :
  exists v, CoordVersion_visit_str s = Ok v /\
    (forall sv, semver_parse s = Some sv ->
       v = Version sv /\ CoordVersion_display v = semver_display sv) /\
    (semver_parse s = None -> v = Any s /\ CoordVersion_display v = s).
Proof.
  unfold CoordVersion_visit_str.
  destruct (semver_parse s) as [sv|] eqn:E.
  - exists (Version sv); split; [reflexivity|split].
    + intros sv' [= <-]; split; reflexivity.
    + discriminate.
  - exists (Any s); split; [reflexivity|split].
    + discriminate.
    + intros _; split; reflexivity.
Qed.

(** ** Coordinate texts *)

Section CoordinateRoundTrip.
Context {SL : SemverLib}.

Lemma coord_segments_no_slash (c : Coordinate) :
  match namespace c with Some ns => no_char "/" ns = true | None => True end ->
  no_char "/" (name c) = true ->
  no_char "/" (CoordVersion_display (version c)) = true ->
  Forall (fun x => no_char "/" x = true) (coord_segments c).
Proof.
  intros Hns Hnm Hv; unfold coord_segments; simpl.
  assert (Hs : no_char "/" (Shape_as_str (shape c)) = true) by (destruct (shape c); reflexivity).
  assert (Hp : no_char "/" (Provider_as_str (provider c)) = true)
    by (destruct (provider c); reflexivity).
  assert (Hn : no_char "/" match namespace c with Some ns => ns | None => "-" end = true)
    by (destruct (namespace c); auto).
  destruct (curation_pr c); simpl;
    repeat constructor; auto using dec_N_no_slash.
Qed.

Lemma parse_segs_of_coord (c : Coordinate) :
  namespace c <> Some "-" ->
  CoordVersion_visit_str (CoordVersion_display (version c)) = Ok (version c) ->
  match curation_pr c with Some pr => (pr <= 4294967295)%N | None => True end ->
  Coordinate_parse_segs (coord_segments c) = Ok c.
Proof.
  destruct c as [sh pv ns nm v pr]; simpl; intros Hns Hv Hpr.
  unfold coord_segments, Coordinate_parse_segs; simpl.
  rewrite Shape_from_str_as_str, Provider_from_str_as_str, Hv.
  assert (Hnso : (if String.eqb match ns with Some ns => ns | None => "-" end "-"
                  then None else Some match ns with Some ns => ns | None => "-" end) = ns).
  { destruct ns as [x|]; [|reflexivity].
    destruct (String.eqb_spec x "-"); [congruence|reflexivity]. }
  rewrite Hnso.
  destruct pr as [p|]; simpl; [|reflexivity].
  rewrite parse_u32_dec_N by exact Hpr; reflexivity.
Qed.

Lemma coord_segments_of_parse (segs : list string) (c : Coordinate) :
  Coordinate_parse_segs segs = Ok c ->
  CoordVersion_display (version c) = nth 4 segs "" ->
  (forall pr, curation_pr c = Some pr -> dec_N pr = nth 6 segs "") ->
  coord_segments c = segs.
Proof.
  unfold Coordinate_parse_segs.
  destruct segs as [|sh [|pv [|ns [|nm [|vs r5]]]]]; try discriminate;
    destruct (Shape_from_str sh) as [sp|] eqn:Hsh; try discriminate;
    destruct (Provider_from_str pv) as [pp|] eqn:Hpv; try discriminate.
  apply Shape_from_str_ok in Hsh; apply Provider_from_str_ok in Hpv.
  destruct (CoordVersion_visit_str vs) as [v|] eqn:Hv; [|discriminate].
  assert (Hns : match (if String.eqb ns "-" then None else Some ns) with
                | Some x => x | None => "-" end = ns)
    by (destruct (String.eqb_spec ns "-"); auto).
  destruct r5 as [|p [|n r6]].
  - intros [= <-] Hd _; unfold coord_segments; simpl in *.
    now rewrite Hsh, Hpv, Hns, Hd.
  - destruct (String.eqb p "pr"); discriminate.
  - destruct (String.eqb_spec p "pr") as [->|]; [|discriminate].
    destruct (parse_u32 n) as [k|]; [|discriminate].
    destruct r6; [|discriminate].
    intros [= <-] Hd Hpr; unfold coord_segments; simpl in *.
    rewrite Hsh, Hpv, Hns, Hd, (Hpr k eq_refl); reflexivity.
Qed.

End CoordinateRoundTrip.

(** C5 (amended): (a) formatting the coordinate parsed from a text gives the
    text back when the version segment is displayed back unchanged and the
    PR number, if any, is written in canonical decimal; (b) parsing the text
    of a coordinate gives it back when its namespace is not [Some "-"], its
    namespace, name and version text hold no [/], its version is what
    version parsing makes of its own text, and its PR number fits a u32;
    (c) a namespace [Some "-"] formats like no namespace, and under the
    other conditions of (b) the text parses back with no namespace;
    (d) a text that does not parse fails at one positional segment of its
    [/]-split, and the error says which: an unknown shape or provider text
    (quoted in the message), a text that ends after the shape, provider,
    namespace or name, a sixth segment other than [pr], a [pr] with a
    missing or non-u32 number, or an eighth segment after the PR number. *)
Theorem Coordinate_parse_format_roundtrip {SL : SemverLib} :
  (forall text c,
     Coordinate_parse text = Ok c ->
     CoordVersion_display (version c) = nth 4 (split_on "/" text) "" ->
     (forall pr, curation_pr c = Some pr -> dec_N pr = nth 6 (split_on "/" text) "") ->
     Coordinate_format c = text) /\
  (forall c,
     namespace c <> Some "-" ->
     match namespace c with Some ns => no_char "/" ns = true | None => True end ->
     no_char "/" (name c) = true ->
     no_char "/" (CoordVersion_display (version c)) = true ->
     CoordVersion_visit_str (CoordVersion_display (version c)) = Ok (version c) ->
     match curation_pr c with Some pr => (pr <= 4294967295)%N | None => True end ->
     Coordinate_parse (Coordinate_format c) = Ok c) /\
  (forall c,
     namespace c = Some "-" ->
     Coordinate_format c = Coordinate_format (set_namespace None c) /\
     (no_char "/" (name c) = true ->
      no_char "/" (CoordVersion_display (version c)) = true ->
      CoordVersion_visit_str (CoordVersion_display (version c)) = Ok (version c) ->
      match curation_pr c with Some pr => (pr <= 4294967295)%N | None => True end ->
      Coordinate_parse (Coordinate_format c) = Ok (set_namespace None c))) /\
  (forall text e,
     Coordinate_parse text = Err e ->
     let segs := split_on "/" text in
     e = BadShape (Other ("unknown shape '" ++ nth 0 segs "" ++ "'")) \/
     (e = MissingProvider /\ length segs = 1) \/
     e = BadProvider (Other ("unknown provider '" ++ nth 1 segs "" ++ "'")) \/
     (e = MissingNamespace /\ length segs = 2) \/
     (e = MissingName /\ length segs = 3) \/
     (e = MissingVersion /\ length segs = 4) \/
     (e = UnexpectedSegment (nth 5 segs "") /\ 6 <= length segs /\ nth 5 segs "" <> "pr") \/
     (e = BadPrNumber (nth 6 segs "") /\ 6 <= length segs /\ nth 5 segs "" = "pr" /\
      parse_u32 (nth 6 segs "") = None) \/
     (e = UnexpectedSegment (nth 7 segs "") /\ 8 <= length segs /\ nth 5 segs "" = "pr")).
Proof.
  assert (Hb : forall c,
     namespace c <> Some "-" ->
     match namespace c with Some ns => no_char "/" ns = true | None => True end ->
     no_char "/" (name c) = true ->
     no_char "/" (CoordVersion_display (version c)) = true ->
     CoordVersion_visit_str (CoordVersion_display (version c)) = Ok (version c) ->
     match curation_pr c with Some pr => (pr <= 4294967295)%N | None => True end ->
     Coordinate_parse (Coordinate_format c) = Ok c).
  { intros c Hdash Hns Hnm Hvs Hv Hpr.
    unfold Coordinate_parse, Coordinate_format; rewrite CoordDisp_join.
    rewrite split_join.
    + now apply parse_segs_of_coord.
    + unfold coord_segments; simpl; discriminate.
    + now apply coord_segments_no_slash. }
  split; [|split; [exact Hb|split]].
  - intros text c Hp Hv Hpr.
    unfold Coordinate_format; rewrite CoordDisp_join.
    unfold Coordinate_parse in Hp.
    change (@coord_segments SL Coordinate Coordinate_Coord c) with (coord_segments c).
    rewrite (coord_segments_of_parse _ _ Hp Hv Hpr).
    apply join_split.
  - intros c Hdash.
    assert (Hf : Coordinate_format c = Coordinate_format (set_namespace None c)).
    { destruct c as [sh pv ns nm v pr]; simpl in Hdash; subst ns; reflexivity. }
    split; [exact Hf|].
    intros Hnm Hvs Hv Hpr; rewrite Hf.
    apply Hb; simpl; auto; discriminate.
  - intros text e He segs.
    unfold Coordinate_parse in He; fold segs in He.
    assert (Hne : segs <> []) by apply split_on_nonnil.
    clearbody segs; clear text.
    unfold Coordinate_parse_segs in He.
    destruct segs as [|sh r1]; [congruence|].
    destruct (Shape_from_str sh) as [sp|err] eqn:Hsh.
    2:{ left; injection He as <-; unfold Shape_from_str in Hsh.
        destruct (String.eqb sh "crate"); [discriminate|].
        destruct (String.eqb sh "git"); [discriminate|].
        now injection Hsh as <-. }
    destruct r1 as [|pv r2]; [right; left; injection He as <-; auto|].
    destruct (Provider_from_str pv) as [pp|err] eqn:Hpv.
    2:{ right; right; left; injection He as <-; unfold Provider_from_str in Hpv.
        destruct (String.eqb pv "cratesio"); [discriminate|].
        destruct (String.eqb pv "github"); [discriminate|].
        now injection Hpv as <-. }
    destruct r2 as [|ns r3]; [do 3 right; left; injection He as <-; auto|].
    destruct r3 as [|nm r4]; [do 4 right; left; injection He as <-; auto|].
    destruct r4 as [|vs r5]; [do 5 right; left; injection He as <-; auto|].
    destruct (CoordVersion_visit_str_spec vs) as [v [Hv _]]; rewrite Hv in He.
    destruct r5 as [|p [|n r6]]; [discriminate| |].
    + cbn [nth length].
      destruct (String.eqb_spec p "pr") as [->|Hp].
      * do 7 right; left; injection He as <-; repeat split; auto.
      * do 6 right; left; injection He as <-; repeat split; auto.
    + cbn [nth length].
      destruct (String.eqb_spec p "pr") as [->|Hp].
      * destruct (parse_u32 n) as [k|] eqn:Hn.
        -- destruct r6 as [|x r7]; [discriminate|].
           do 8 right; injection He as <-; cbn [nth length]; repeat split; lia.
        -- do 7 right; left; injection He as <-; repeat split; auto; simpl; lia.
      * do 6 right; left; injection He as <-; repeat split; auto; simpl; lia.
Qed.

(** C5: the text of a coordinate whose namespace is [Some "-"] parses to a
    different coordinate (namespace [None]). *)
Lemma Coordinate_roundtrip_dash_namespace :
  Coordinate_format dash_namespace_coord = "crate/cratesio/-/syn/abc" /\
  Coordinate_parse (Coordinate_format dash_namespace_coord)
    = Ok (mkCoordinate Crate CratesIo None "syn" (Any "abc") None) /\
  Coordinate_parse (Coordinate_format dash_namespace_coord) <> Ok dash_namespace_coord.
Proof. split; [reflexivity|split; [reflexivity|discriminate]]. Qed.

(** ** The tolerant definition decoder *)


Lemma visit_map_loop_app (m1 m2 : MapAccess) (st : DefVisitState) :
  visit_map_loop st (m1 ++ m2)%list =
  let* st' := visit_map_loop st m1 in visit_map_loop st' m2.
Proof.
  revert st; induction m1 as [|[[k|k] v] m1 IH]; intros st; [reflexivity| |reflexivity].
  destruct st as [c d l f s]; simpl.
  destruct (String.eqb k "coordinates");
    [destruct c; [reflexivity|destruct (next_coords v); [apply IH|reflexivity]]|].
  destruct (String.eqb k "described"); [destruct d; [reflexivity|apply IH]|].
  destruct (String.eqb k "licensed"); [destruct l; [reflexivity|apply IH]|].
  destruct (String.eqb k "files");
    [destruct f; [destruct (next_files v); [apply IH|reflexivity]|reflexivity]|].
  destruct (String.eqb k "scores"); [destruct (next_scores v); [apply IH|reflexivity]|].
  apply IH.
Qed.

Lemma not_in_keys_cons (k0 : string) (k : MapKey) (v : ValueDe) (m : MapAccess) :
  ~ In k0 (map fst (entries ((k, v) :: m))) -> key_str k <> k0 /\ ~ In k0 (map fst (entries m)).
Proof. simpl; intuition. Qed.

(** The value of the [described] slot does not influence the loop over
    entries other than [described], nor over any entries once the slot is
    filled. *)
Lemma visit_map_loop_described (m : MapAccess) c d d' l f s :
  (~ In "described" (map fst (entries m)) \/ (d <> None /\ d' <> None)) ->
  visit_map_loop (mkDefVisitState c d l f s) m
  = rmap (set_described d) (visit_map_loop (mkDefVisitState c d' l f s) m).
Proof.
  revert c l f s; induction m as [|[[k|k] v] m IH]; intros c l f s H;
    [reflexivity| |reflexivity].
  assert (Hm : ~ In "described" (map fst (entries m)) \/ (d <> None /\ d' <> None)).
  { destruct H as [H|H]; [left; now apply not_in_keys_cons in H|now right]. }
  simpl.
  destruct (String.eqb k "coordinates");
    [destruct c; [reflexivity|destruct (next_coords v); [now apply IH|reflexivity]]|].
  destruct (String.eqb_spec k "described") as [->|Hk].
  { destruct H as [H|[Hd Hd']]; [exfalso; apply H; now left|].
    destruct d; [|congruence]; destruct d'; [reflexivity|congruence]. }
  destruct (String.eqb k "licensed"); [destruct l; [reflexivity|now apply IH]|].
  destruct (String.eqb k "files");
    [destruct f; [destruct (next_files v); [now apply IH|reflexivity]|reflexivity]|].
  destruct (String.eqb k "scores"); [destruct (next_scores v); [now apply IH|reflexivity]|].
  now apply IH.
Qed.

Lemma visit_map_loop_licensed (m : MapAccess) c d l l' f s :
  (~ In "licensed" (map fst (entries m)) \/ (l <> None /\ l' <> None)) ->
  visit_map_loop (mkDefVisitState c d l f s) m
  = rmap (set_licensed l) (visit_map_loop (mkDefVisitState c d l' f s) m).
Proof.
  revert c d f s; induction m as [|[[k|k] v] m IH]; intros c d f s H;
    [reflexivity| |reflexivity].
  assert (Hm : ~ In "licensed" (map fst (entries m)) \/ (l <> None /\ l' <> None)).
  { destruct H as [H|H]; [left; now apply not_in_keys_cons in H|now right]. }
  simpl.
  destruct (String.eqb k "coordinates");
    [destruct c; [reflexivity|destruct (next_coords v); [now apply IH|reflexivity]]|].
  destruct (String.eqb k "described"); [destruct d; [reflexivity|now apply IH]|].
  destruct (String.eqb_spec k "licensed") as [->|Hk].
  { destruct H as [H|[Hl Hl']]; [exfalso; apply H; now left|].
    destruct l; [|congruence]; destruct l'; [reflexivity|congruence]. }
  destruct (String.eqb k "files");
    [destruct f; [destruct (next_files v); [now apply IH|reflexivity]|reflexivity]|].
  destruct (String.eqb k "scores"); [destruct (next_scores v); [now apply IH|reflexivity]|].
  now apply IH.
Qed.

Lemma finish_set_described (st : DefVisitState) (d : Definition_) (o : option Description) :
  DefVisitor_finish st = Ok d ->
  DefVisitor_finish (set_described (Some o) st) = Ok (with_described d o).
Proof.
  destruct st as [[c|] [dd|] [ll|] f s]; simpl; try discriminate.
  now intros [= <-].
Qed.

Lemma finish_unset_described (st : DefVisitState) (d : Definition_) :
  DefVisitor_finish st = Ok d ->
  DefVisitor_finish (set_described None st) = Err (MissingField "described").
Proof. destruct st as [[c|] [dd|] [ll|] f s]; simpl; try discriminate; reflexivity. Qed.

Lemma finish_set_licensed (st : DefVisitState) (d : Definition_) (o : option License) :
  DefVisitor_finish st = Ok d ->
  DefVisitor_finish (set_licensed (Some o) st) = Ok (with_licensed d o).
Proof.
  destruct st as [[c|] [dd|] [ll|] f s]; simpl; try discriminate.
  now intros [= <-].
Qed.

Lemma finish_unset_licensed (st : DefVisitState) (d : Definition_) :
  DefVisitor_finish st = Ok d ->
  DefVisitor_finish (set_licensed None st) = Err (MissingField "licensed").
Proof. destruct st as [[c|] [dd|] [ll|] f s]; simpl; try discriminate; reflexivity. Qed.

Lemma not_in_keys_app_r (k : string) (pre post : MapAccess) :
  ~ In k (map fst (entries (pre ++ post)%list)) -> ~ In k (map fst (entries post)).
Proof. unfold entries; rewrite !map_app, in_app_iff; tauto. Qed.



Example visit_map_partial_definition :
  DefVisitor_visit_map (borrowed [("coordinates", vd_coords_myrepo); ("described", vd_scalar "null");
                        ("licensed", vd_scalar "null"); ("files", vd_empty_array)])
  = Ok (mkDefinition coords_myrepo None None [] (mkTopLevelScore 0 0)).
Proof. reflexivity. Qed.

Example visit_map_duplicate_coordinates :
  DefVisitor_visit_map (borrowed [("coordinates", vd_coords_myrepo); ("coordinates", vd_coords_myrepo)])
  = Err (DuplicateField "coordinates").
Proof. reflexivity. Qed.



(** C3: a repeated [scores] key, and a repeated [files] key whose first
    value is the empty array, are accepted: the later value wins. *)
Theorem DefVisitor_duplicate_scores_files_accepted :
  DefVisitor_visit_map (borrowed [("coordinates", vd_coords_myrepo); ("described", vd_scalar "null");
                        ("licensed", vd_scalar "null");
                        ("scores", vd_scores 1 1); ("scores", vd_scores 2 2)])
  = Ok (mkDefinition coords_myrepo None None [] (mkTopLevelScore 2 2)) /\
  DefVisitor_visit_map (borrowed [("coordinates", vd_coords_myrepo); ("described", vd_scalar "null");
                        ("licensed", vd_scalar "null");
                        ("files", vd_empty_array); ("files", vd_empty_array)])
  = Ok (mkDefinition coords_myrepo None None [] (mkTopLevelScore 0 0)).
Proof. split; reflexivity. Qed.

(** ** The batch request builder *)

Section GetProofs.
Context {SL : SemverLib}.

Lemma get_loop_chunks (cs : nat) (xs : list Coordinate) :
  1 <= cs ->
  forall rq co, length co < cs -> Forall (fun r => length r = cs) rq ->
  let '(rq', co') := get_loop cs rq co xs in
  (concat rq' ++ co' = concat rq ++ co ++ map (fun c => JString (Coordinate_format c)) xs)%list /\
  Forall (fun r => length r = cs) rq' /\ length co' < cs.
Proof.
  intros Hcs; induction xs as [|x xs IH]; intros rq co Hco Hrq; simpl.
  - rewrite app_nil_r; auto.
  - rewrite length_app; simpl.
    destruct (Nat.eqb_spec (length co + 1) cs) as [E|E].
    + assert (Hrq' : Forall (fun r => length r = cs)
                        (rq ++ [co ++ [JString (Coordinate_format x)]])%list).
      { apply Forall_app; split; [exact Hrq|].
        constructor; [rewrite length_app; simpl; lia|constructor]. }
      specialize (IH _ [] ltac:(simpl; lia) Hrq').
      destruct (get_loop cs (rq ++ [co ++ [JString (Coordinate_format x)]])%list [] xs) as [rq' co'].
      destruct IH as [H1 [H2 H3]].
      split; [|auto].
      rewrite H1, concat_app; simpl.
      rewrite !app_nil_r, <- !app_assoc; reflexivity.
    + specialize (IH rq (co ++ [JString (Coordinate_format x)])%list ltac:(rewrite length_app; simpl; lia) Hrq).
      destruct (get_loop cs rq (co ++ [JString (Coordinate_format x)])%list xs) as [rq' co'].
      destruct IH as [H1 [H2 H3]].
      split; [|auto].
      rewrite H1, <- !app_assoc; reflexivity.
Qed.

Lemma get_loop_zero (xs : list Coordinate) :
  forall rq co, co <> [] \/ xs <> [] ->
  get_loop 0 rq co xs = (rq, co ++ map (fun c => JString (Coordinate_format c)) xs)%list.
Proof.
  induction xs as [|x xs IH]; intros rq co H; simpl.
  - now rewrite app_nil_r.
  - rewrite length_app; simpl.
    replace (Nat.eqb (length co + 1) 0) with false by (symmetry; apply Nat.eqb_neq; lia).
    rewrite IH by (left; destruct co; discriminate).
    now rewrite <- app_assoc.
Qed.

Lemma length_concat_uniform (cs : nat) (rq : list (list json)) :
  Forall (fun r => length r = cs) rq -> length (concat rq) = length rq * cs.
Proof.
  induction 1 as [|r rq Hr _ IH]; simpl; [reflexivity|].
  rewrite length_app, IH, Hr; lia.
Qed.

Lemma body_strings_chunks (chunks : list (list json)) (xs : list Coordinate) :
  concat chunks = map (fun c => JString (Coordinate_format c)) xs ->
  flat_map (fun r => body_strings (req_body r)) (map build_request chunks)
  = map Coordinate_format xs.
Proof.
  intros H.
  assert (Hfm : forall l, flat_map (fun r => body_strings (req_body r)) (map build_request l)
                = flat_map (fun x => match x with JString s => [s] | _ => [] end) (concat l)).
  { induction l as [|r l IH]; simpl; [reflexivity|].
    now rewrite IH, flat_map_app. }
  rewrite Hfm, H; clear.
  induction xs as [|x xs IH]; simpl; [reflexivity|now rewrite IH].
Qed.

Lemma ceil_div_split (q r cs : nat) :
  1 <= cs -> r < cs ->
  (q * cs + r + cs - 1) / cs = q + (if Nat.eqb r 0 then 0 else 1).
Proof.
  intros Hcs Hr.
  destruct (Nat.eqb_spec r 0) as [->|Hr0].
  - replace (q * cs + 0 + cs - 1) with (q * cs + (cs - 1)) by lia.
    rewrite Nat.div_add_l by lia.
    rewrite (Nat.div_small (cs - 1) cs) by lia; lia.
  - replace (q * cs + r + cs - 1) with ((q + 1) * cs + (r - 1)) by lia.
    rewrite Nat.div_add_l by lia.
    rewrite (Nat.div_small (r - 1) cs) by lia; lia.
Qed.

End GetProofs.

(** For a chunk size [C >= 1], with [cs = min C 1000], [get]
    emits [ceil(N / cs)] requests; every body is a JSON array of coordinate
    texts; all bodies but the last hold exactly [cs] of them and the last
    holds between 1 and [cs]; read in order, the bodies list the formatted
    input coordinates in their order. *)
Theorem get_chunking {SL : SemverLib} (C : nat) (xs : list Coordinate) :
  1 <= C ->
  let cs := Nat.min C 1000 in
  let reqs := get C xs in
  length reqs = (length xs + cs - 1) / cs /\
  Forall (fun r => exists ss, req_body r = JArray (map JString ss)) reqs /\
  Forall (fun r => body_length (req_body r) = cs) (removelast reqs) /\
  Forall (fun r => 0 < body_length (req_body r) <= cs) reqs /\
  flat_map (fun r => body_strings (req_body r)) reqs = map Coordinate_format xs.
Proof.
  intros HC cs reqs.
  assert (Hcs : 1 <= cs) by (unfold cs; lia).
  pose proof (get_loop_chunks cs xs Hcs [] [] ltac:(simpl; lia) (Forall_nil _)) as Hl.
  unfold reqs, get; fold cs.
  destruct (get_loop cs [] [] xs) as [rq co].
  destruct Hl as [Hcat [Hrq Hco]]; simpl in Hcat.
  (* the chunks actually sent *)
  set (chunks := match co with [] => rq | _ => (rq ++ [co])%list end).
  change (match co with [] => rq | _ => (rq ++ [co])%list end) with chunks.
  assert (Hconcat : concat chunks = map (fun c => JString (Coordinate_format c)) xs).
  { unfold chunks; destruct co as [|j co'].
    - now rewrite <- Hcat, app_nil_r.
    - now rewrite concat_app; simpl; rewrite app_nil_r. }
  assert (Hlen : Forall (fun r => 0 < length r <= cs) chunks).
  { assert (Hrq1 : Forall (fun r => 0 < length r <= cs) rq)
      by (eapply Forall_impl; [|exact Hrq]; simpl; lia).
    unfold chunks; destruct co as [|j co']; [exact Hrq1|].
    apply Forall_app; split; [exact Hrq1|constructor; [simpl in *; lia|constructor]]. }
  assert (Hstr : Forall (fun r => Forall (fun j => exists s, j = JString s) r) chunks).
  { apply Forall_forall; intros r Hr; apply Forall_forall; intros j Hj.
    assert (Hin : In j (concat chunks)) by (apply in_concat; eauto).
    rewrite Hconcat, in_map_iff in Hin; destruct Hin as [c [<- _]]; eauto. }
  repeat split.
  - rewrite length_map.
    assert (HN : length xs = length rq * cs + length co).
    { rewrite <- (length_map (fun c => JString (Coordinate_format c)) xs), <- Hcat.
      rewrite length_app, (length_concat_uniform cs rq Hrq); reflexivity. }
    rewrite HN, ceil_div_split by assumption.
    unfold chunks; destruct co as [|j co']; simpl; [lia|].
    rewrite length_app; simpl; lia.
  - apply Forall_map, (Forall_impl _ (P := fun r => Forall (fun j => exists s, j = JString s) r));
      [|exact Hstr].
    intros r Hr; simpl.
    exists (flat_map (fun x => match x with JString s => [s] | _ => [] end) r).
    f_equal; induction Hr as [|j r [s ->] _ IH]; simpl; [reflexivity|now rewrite <- IH].
  - unfold chunks; destruct co as [|j co'].
    + apply Forall_forall; intros r Hr.
      assert (Hin : In r (map build_request rq)).
      { clear -Hr; revert Hr; generalize (map build_request rq) as l.
        induction l as [|a [|b l] IH]; simpl; intuition. }
      apply in_map_iff in Hin as [r' [<- Hr']]; simpl.
      now rewrite Forall_forall in Hrq; apply Hrq.
    + rewrite map_app, removelast_app by discriminate; simpl; rewrite app_nil_r.
      apply Forall_map; eapply Forall_impl; [|exact Hrq]; simpl; auto.
  - apply Forall_map; eapply Forall_impl; [|exact Hlen]; simpl; lia.
  - now apply body_strings_chunks.
Qed.

Lemma get_chunking_witness :
  length (get 2 three_coords) = (length three_coords + Nat.min 2 1000 - 1) / Nat.min 2 1000 /\
  flat_map (fun r => body_strings (req_body r)) (get 2 three_coords)
  = map Coordinate_format three_coords.
Proof.
  destruct (get_chunking 2 three_coords ltac:(lia)) as [H1 [_ [_ [_ H5]]]].
  split; [exact H1|exact H5].
Defined.

(** C10: with chunk size 0 a non-empty input gives a single request that
    carries every coordinate, however many there are. *)
Theorem get_chunk_size_zero {SL : SemverLib} (xs : list Coordinate) :
  xs <> [] ->
  get 0 xs = [build_request (map (fun c => JString (Coordinate_format c)) xs)].
Proof.
  intros Hxs; unfold get; simpl Nat.min.
  rewrite get_loop_zero by (right; exact Hxs); simpl.
  destruct xs as [|x xs]; [congruence|reflexivity].
Qed.

Lemma get_chunk_size_zero_witness :
  get 0 (repeat syn_coord 1001)
  = [build_request (map (fun c => JString (Coordinate_format c)) (repeat syn_coord 1001))].
Proof.
  apply get_chunk_size_zero; discriminate.
Defined.

(** C2: [get] caps the chunk size at [min C 1000], but with [C = 0] the
    cap is 0, which no chunk length ever equals: 1001 coordinates go out
    in one request whose body holds 1001 texts, more than the 1000 that
    the function's documentation gives as the service's limit per request
    and more than [min 0 1000]. *)
Lemma get_chunk_size_zero_oversized :
  length (get 0 (repeat syn_coord 1001)) = 1 /\
  map (fun r => body_length (req_body r)) (get 0 (repeat syn_coord 1001)) = [1001] /\
  Nat.min 0 1000 = 0 /\ 1000 < 1001.
Proof. vm_compute; repeat split; lia. Qed.

(** ** Response handling *)

(** C6: a success status (200 to 299) hands the response to the tolerant
    decoder; any other status is the [HttpStatus] error carrying it, for
    every body and whatever the decoder would do with it. *)
Theorem try_from_parts_status {B : Type} (value_de : json -> ValueDe)
  (parse_json : B -> result json DeError) (r : Response B) :
  (is_success (status r) = true <-> (200 <= status r < 300)%N) /\
  (is_success (status r) = true ->
     try_from_parts (GetResponse_try_from value_de B parse_json) r
     = GetResponse_try_from value_de B parse_json r) /\
  (is_success (status r) = false ->
     forall (B' Self : Type) (try_from : Response B' -> result Self Error) (b : B'),
       try_from_parts try_from (mkResponse (status r) b) = Err (HttpStatus (status r))).
Proof.
  split; [|split].
  - unfold is_success; rewrite Bool.andb_true_iff, N.leb_le, N.ltb_lt; reflexivity.
  - intros H; unfold try_from_parts; now rewrite H.
  - intros H B' Self try_from b; unfold try_from_parts; simpl; now rewrite H.
Qed.

(** ** Ordering of the batch response *)


Lemma ascii_compare_refl (a : ascii) : Ascii.compare a a = Eq.
Proof. unfold Ascii.compare; apply N.compare_refl. Qed.

Lemma ascii_compare_lt_trans (a b c : ascii) :
  Ascii.compare a b = Lt -> Ascii.compare b c = Lt -> Ascii.compare a c = Lt.
Proof. unfold Ascii.compare; rewrite !N.compare_lt_iff; lia. Qed.

Lemma str_compare_refl (s : string) : String.compare s s = Eq.
Proof. induction s as [|a s IH]; simpl; [reflexivity|now rewrite ascii_compare_refl]. Qed.

Lemma str_compare_lt_trans (a b c : string) :
  String.compare a b = Lt -> String.compare b c = Lt -> String.compare a c = Lt.
Proof.
  revert b c; induction a as [|x a IH]; intros [|y b] [|z c]; simpl;
    try discriminate; try reflexivity.
  destruct (Ascii.compare x y) eqn:E1; try discriminate;
  destruct (Ascii.compare y z) eqn:E2; try discriminate; intros H1 H2.
  - apply Ascii.compare_eq_iff in E1, E2; subst.
    rewrite ascii_compare_refl; eauto.
  - apply Ascii.compare_eq_iff in E1; subst; now rewrite E2.
  - apply Ascii.compare_eq_iff in E2; subst; now rewrite E1.
  - now rewrite (ascii_compare_lt_trans _ _ _ E1 E2).
Qed.

Lemma str_compare_gt_lt (a b : string) :
  String.compare a b = Gt -> String.compare b a = Lt.
Proof. intros H; rewrite String.compare_antisym, H; reflexivity. Qed.

Lemma btree_insert_in {V} (k : string) (v : V) m p :
  In p (btree_insert k v m) -> p = (k, v) \/ In p m.
Proof.
  induction m as [|[k' v'] m IH]; simpl.
  - intros [H|[]]; auto.
  - destruct (String.compare k k'); simpl; intros [H|H]; auto.
    destruct (IH H); auto.
Qed.

Lemma btree_insert_keys {V} (k : string) (v : V) m x :
  In x (map fst (btree_insert k v m)) <-> x = k \/ In x (map fst m).
Proof.
  induction m as [|[k' v'] m IH]; simpl.
  - intuition.
  - destruct (String.compare k k') eqn:E; simpl.
    + apply String.compare_eq_iff in E; subst; intuition.
    + intuition.
    + rewrite IH; intuition.
Qed.

Lemma btree_insert_sorted {V} (k : string) (v : V) m :
  StronglySorted key_lt m -> StronglySorted key_lt (btree_insert k v m).
Proof.
  induction m as [|[k' v'] m IH]; simpl; intros Hs.
  - constructor; constructor.
  - inversion Hs as [|? ? Hm Hf]; subst.
    destruct (String.compare k k') eqn:E.
    + apply String.compare_eq_iff in E; subst.
      constructor; [exact Hm|exact Hf].
    + constructor; [exact Hs|].
      constructor; [exact E|].
      eapply Forall_impl; [|exact Hf]; intros [a b] H.
      unfold key_lt in *; simpl in *; eapply str_compare_lt_trans; eauto.
    + constructor; [now apply IH|].
      apply Forall_forall; intros p Hp.
      destruct (btree_insert_in k v m p Hp) as [->|Hin].
      * now apply str_compare_gt_lt.
      * exact (proj1 (Forall_forall _ _) Hf p Hin).
Qed.

Lemma sorted_keys_nodup {V} (m : list (string * V)) :
  StronglySorted key_lt m -> NoDup (map fst m).
Proof.
  induction m as [|[k v] m IH]; simpl; intros Hs; constructor.
  - inversion Hs as [|? ? Hm Hf]; subst; intros Hin.
    apply in_map_iff in Hin as [[k' v'] [Hk Hin]]; simpl in Hk; subst.
    pose proof (proj1 (Forall_forall _ _) Hf _ Hin) as H.
    unfold key_lt in H; simpl in H; now rewrite str_compare_refl in H.
  - inversion Hs; auto.
Qed.

Lemma collect_items_spec (value_de : json -> ValueDe) acc kvs items :
  collect_items value_de acc kvs = Ok items ->
  StronglySorted key_lt acc ->
  StronglySorted key_lt items /\
  (forall x, In x (map fst items) <-> In x (map fst acc) \/ In x (map fst kvs)) /\
  (forall k d, In (k, d) items ->
     In (k, d) acc \/ exists v, In (k, v) kvs /\ Definition_deserialize value_de v = Ok d).
Proof.
  revert acc; induction kvs as [|[k v] kvs IH]; simpl; intros acc H Hs.
  - injection H as <-; repeat split; auto; tauto.
  - destruct (Definition_deserialize value_de v) as [d|e] eqn:Ed; [|discriminate].
    destruct (IH _ H (btree_insert_sorted k d acc Hs)) as [Hs' [Hk Hv]].
    repeat split; [exact Hs'| | |].
    + intros Hx; apply Hk in Hx; rewrite btree_insert_keys in Hx; simpl; intuition (subst; auto).
    + intros Hx; apply Hk; rewrite btree_insert_keys; simpl in Hx; intuition (subst; auto).
    + intros k' d' Hin; destruct (Hv _ _ Hin) as [Hin'|[v' [Hv' Hd]]].
      * destruct (btree_insert_in _ _ _ _ Hin') as [Heq|Hacc]; [|auto].
        injection Heq as -> ->; right; exists v; auto.
      * right; exists v'; auto.
Qed.

(** C9: a decoded batch response lists its definitions in ascending
    byte-wise order of the body object's keys, one per distinct key: the
    keys are sorted strictly, so no key appears twice, every key of the
    body appears, and each definition is the decoding of a value that the
    body holds under its key. *)
Theorem GetResponse_sorted_unique {B : Type} (value_de : json -> ValueDe)
  (parse_json : B -> result json DeError) (r : Response B) (g : GetResponse) :
  GetResponse_try_from value_de B parse_json r = Ok g ->
  exists kvs items,
    parse_json (body r) = Ok (JObject kvs) /\
    definitions g = map snd items /\
    StronglySorted key_lt items /\
    NoDup (map fst items) /\
    (forall k, In k (map fst items) <-> In k (map fst (entries kvs))) /\
    (forall k d, In (k, d) items ->
       exists v, In (k, v) (entries kvs) /\ Definition_deserialize value_de v = Ok d).
Proof.
  unfold GetResponse_try_from, RawGetResponse_deserialize.
  destruct (parse_json (body r)) as [j|e]; [|discriminate].
  destruct j as [| | | | |kvs]; try discriminate.
  destruct (collect_items value_de [] (entries kvs)) as [items|e] eqn:E; [|discriminate].
  intros H; injection H as <-.
  destruct (collect_items_spec value_de [] (entries kvs) items E ltac:(constructor))
    as [Hs [Hk Hv]].
  exists kvs, items; repeat split; auto.
  - now apply sorted_keys_nodup.
  - intros Hx; apply Hk in Hx; simpl in Hx; tauto.
  - intros Hx; apply Hk; simpl; tauto.
  - intros k d Hin; destruct (Hv _ _ Hin) as [[]|Hex]; exact Hex.
Qed.

Lemma GetResponse_sorted_unique_witness :
  exists g, GetResponse_try_from demo_value_de json (fun j => Ok j) demo_batch_response = Ok g /\
    length (definitions g) = 2 /\
    exists kvs items,
      body demo_batch_response = JObject kvs /\ definitions g = map snd items /\
      StronglySorted key_lt items /\ NoDup (map fst items) /\
      map fst items = ["crate/cratesio/-/alpha/1"; "git/github/-/zeta/1"].
Proof.
  eexists; split; [reflexivity|]; split; [reflexivity|].
  destruct (GetResponse_sorted_unique demo_value_de (fun j => Ok j) demo_batch_response _ eq_refl)
    as [kvs [items [Hp [Hd [Hs [Hn [Hk _]]]]]]].
  exists kvs, items; repeat split; auto.
  { simpl in Hp; injection Hp as <-; reflexivity. }
  simpl in Hp; injection Hp as <-.
  simpl in Hd.
  destruct items as [|[k1 d1] [|[k2 d2] [|]]]; simpl in Hd; try discriminate.
  pose proof (proj1 (Hk k1) ltac:(simpl; auto)) as H1.
  pose proof (proj1 (Hk k2) ltac:(simpl; auto)) as H2.
  inversion Hs as [|? ? _ Hf]; subst; inversion Hf as [|? ? Hlt _]; subst.
  unfold key_lt in Hlt; simpl in Hlt, H1, H2.
  destruct H1 as [<-|[<-|[<-|[]]]]; destruct H2 as [<-|[<-|[<-|[]]]];
    try reflexivity; vm_compute in Hlt; discriminate.
Defined.

Lemma Coordinate_parse_format_roundtrip_witness :
  Coordinate_parse (Coordinate_format
    (mkCoordinate Git Github (Some "myorg") "myrepo" (Any "abcdef") (Some 42%N)))
  = Ok (mkCoordinate Git Github (Some "myorg") "myrepo" (Any "abcdef") (Some 42%N)) /\
  Coordinate_format (mkCoordinate Crate CratesIo None "syn" (Version (mkSemVer 1 0 14 "" "")) None)
  = "crate/cratesio/-/syn/1.0.14" /\
  Coordinate_parse (Coordinate_format dash_namespace_coord)
  = Ok (set_namespace None dash_namespace_coord).
Proof.
  destruct Coordinate_parse_format_roundtrip as [Ha [Hb [Hc _]]]; split; [|split].
  - apply Hb; simpl; [discriminate|reflexivity|reflexivity|reflexivity|reflexivity|vm_compute; discriminate].
  - apply (Ha "crate/cratesio/-/syn/1.0.14"); [reflexivity|reflexivity|intros pr; discriminate].
  - apply (proj2 (Hc dash_namespace_coord eq_refl)); reflexivity.
Defined.

(** ** Leaf decoders *)

(** The text of a [Shape] or [Provider] in JSON: exactly the lowercase
    names decode; any other string is a custom error whose message is the
    [Display] of [Error::Other], "other error", which does not mention the
    text; a value that is not a string is an invalid type. *)
Theorem Shape_Provider_deserialize_spec (j : json) :
  (forall sh, Shape_deserialize j = Ok sh <-> j = JString (Shape_as_str sh)) /\
  (forall p, Provider_deserialize j = Ok p <-> j = JString (Provider_as_str p)) /\
  (forall s, j = JString s ->
     (forall sh, Shape_as_str sh <> s) -> Shape_deserialize j = Err (Custom "other error")) /\
  (forall s, j = JString s ->
     (forall p, Provider_as_str p <> s) -> Provider_deserialize j = Err (Custom "other error")) /\
  ((forall s, j <> JString s) ->
     Shape_deserialize j = Err (InvalidType "string") /\
     Provider_deserialize j = Err (InvalidType "string")).
Proof.
  unfold Shape_deserialize, Provider_deserialize, de_from_str.
  split; [|split; [|split; [|split]]].
  - intros sh; destruct j; split; try discriminate; try (intros H; discriminate).
    + destruct (Shape_from_str s) eqn:E; intros H; [|discriminate].
      injection H as ->; apply Shape_from_str_ok in E; now subst.
    + intros [= ->]; now rewrite Shape_from_str_as_str.
  - intros p; destruct j; split; try discriminate; try (intros H; discriminate).
    + destruct (Provider_from_str s) eqn:E; intros H; [|discriminate].
      injection H as ->; apply Provider_from_str_ok in E; now subst.
    + intros [= ->]; now rewrite Provider_from_str_as_str.
  - intros s -> Hs.
    destruct (Shape_from_str s) eqn:E.
    + apply Shape_from_str_ok in E; now destruct (Hs a).
    + unfold Shape_from_str in E.
      destruct (String.eqb s "crate"); [discriminate|].
      destruct (String.eqb s "git"); [discriminate|].
      now injection E as <-.
  - intros s -> Hs.
    destruct (Provider_from_str s) eqn:E.
    + apply Provider_from_str_ok in E; now destruct (Hs a).
    + unfold Provider_from_str in E.
      destruct (String.eqb s "cratesio"); [discriminate|].
      destruct (String.eqb s "github"); [discriminate|].
      now injection E as <-.
  - intros H; destruct j; try (split; reflexivity).
    now destruct (H s).
Qed.

Lemma Shape_Provider_deserialize_spec_witness :
  Shape_deserialize (JString "Crate") = Err (Custom "other error") /\
  Provider_deserialize (JString "gitlab") = Err (Custom "other error").
Proof.
  destruct (Shape_Provider_deserialize_spec (JString "Crate")) as [_ [_ [H1 _]]].
  destruct (Shape_Provider_deserialize_spec (JString "gitlab")) as [_ [_ [_ [H2 _]]]].
  split; [apply (H1 "Crate")|apply (H2 "gitlab")]; try reflexivity;
    intros [|]; discriminate.
Defined.

(** [u8] fields: a JSON integer decodes exactly when it lies in [0, 255],
    to that value; an integer of [u64] or [i64] range outside it is an
    invalid value, reported with the integer. *)
Lemma u8_deserialize_spec (j : json) :
  (forall n, u8_deserialize j = Ok n <->
     exists z, j = JNumber z /\ (0 <= z <= 255)%Z /\ n = Z.to_N z) /\
  (forall z, ((- 2 ^ 63 <= z < 0) \/ (255 < z < 2 ^ 64))%Z ->
     u8_deserialize (JNumber z) = Err (invalid_value_integer z "u8")).
Proof.
  split.
  - intros n; split.
    + destruct j as [| |z| | |]; intros H; try discriminate.
      unfold u8_deserialize in H.
      destruct ((0 <=? z)%Z && (z <? 2 ^ 64)%Z) eqn:E1.
      * destruct (z <=? 255)%Z eqn:E2; [|discriminate].
        apply andb_prop in E1 as [E1 _]; apply Z.leb_le in E1; apply Z.leb_le in E2.
        injection H as <-; exists z; repeat split; lia.
      * destruct ((- 2 ^ 63 <=? z)%Z && (z <? 0)%Z); discriminate.
    + intros [z [-> [Hz ->]]]; unfold u8_deserialize.
      replace ((0 <=? z)%Z && (z <? 2 ^ 64)%Z) with true
        by (symmetry; apply andb_true_intro; split; [apply Z.leb_le|apply Z.ltb_lt]; lia).
      replace (z <=? 255)%Z with true by (symmetry; apply Z.leb_le; lia).
      reflexivity.
  - intros z Hz; unfold u8_deserialize.
    destruct Hz as [Hz|Hz].
    + replace ((0 <=? z)%Z && (z <? 2 ^ 64)%Z) with false
        by (symmetry; apply Bool.andb_false_iff; left; apply Z.leb_gt; lia).
      replace ((- 2 ^ 63 <=? z)%Z && (z <? 0)%Z) with true
        by (symmetry; apply andb_true_intro; split; [apply Z.leb_le|apply Z.ltb_lt]; lia).
      reflexivity.
    + replace ((0 <=? z)%Z && (z <? 2 ^ 64)%Z) with true
        by (symmetry; apply andb_true_intro; split; [apply Z.leb_le|apply Z.ltb_lt]; lia).
      replace (z <=? 255)%Z with false by (symmetry; apply Z.leb_gt; lia).
      reflexivity.
Qed.

(** ** The derived decoders of [DefCoords] and [TopLevelScore] *)

Lemma assoc_lookup_not_in {V} (k : string) (kvs : list (string * V)) :
  ~ In k (map fst kvs) -> assoc_lookup k kvs = None.
Proof.
  induction kvs as [|[k' v] kvs IH]; simpl; intros H; [reflexivity|].
  destruct (String.eqb_spec k' k); [tauto|auto].
Qed.

Lemma assoc_lookup_in {V} (k : string) (kvs : list (string * V)) v :
  assoc_lookup k kvs = Some v -> In (k, v) kvs.
Proof.
  induction kvs as [|[k' v'] kvs IH]; simpl; [discriminate|].
  destruct (String.eqb_spec k' k) as [->|]; [intros [= ->]; auto|auto].
Qed.

Lemma assoc_lookup_skip {V} (k k' : string) (v : V) kvs :
  k' <> k -> assoc_lookup k ((k', v) :: kvs) = assoc_lookup k kvs.
Proof. intros H; simpl; destruct (String.eqb_spec k' k); [congruence|reflexivity]. Qed.

Lemma assoc_lookup_here {V} (k : string) (v : V) kvs :
  assoc_lookup k ((k, v) :: kvs) = Some v.
Proof. simpl; now rewrite String.eqb_refl. Qed.

Lemma filter_nodup_head (f : string -> bool) k ks :
  f k = true -> NoDup (filter f (k :: ks)) -> ~ In k ks /\ NoDup (filter f ks).
Proof.
  simpl; intros Hk; rewrite Hk; intros Hn; inversion Hn as [|? ? Hni Hnd]; subst.
  split; [|exact Hnd].
  intros Hin; apply Hni, filter_In; auto.
Qed.

Lemma filter_nodup_skip (f : string -> bool) k ks :
  NoDup (filter f (k :: ks)) -> NoDup (filter f ks).
Proof.
  simpl; destruct (f k); [|auto].
  intros Hn; now inversion Hn.
Qed.

Ltac field_neq := let H := fresh in intros H; discriminate H.

Section DefCoordsProofs.
Context {SL : SemverLib}.

Lemma DefCoords_loop_spec (kvs : list (string * json)) t p n r :
  NoDup (filter DefCoords_is_field (map fst kvs)) ->
  Forall (fun kv => DefCoords_field_ok (fst kv) (snd kv) = true) kvs ->
  (In "type" (map fst kvs) -> t = None) ->
  (In "provider" (map fst kvs) -> p = None) ->
  (In "name" (map fst kvs) -> n = None) ->
  (In "revision" (map fst kvs) -> r = None) ->
  DefCoords_visit_map_loop (mkDefCoordsFields t p n r) kvs =
  Ok (mkDefCoordsFields (lookup_or Shape_deserialize "type" kvs t)
                        (lookup_or Provider_deserialize "provider" kvs p)
                        (lookup_or String_deserialize "name" kvs n)
                        (lookup_or CoordVersion_deserialize "revision" kvs r)).
Proof.
  revert t p n r; induction kvs as [|[k v] kvs IH]; intros t p n r Hnd Hok Ht Hp Hn Hr.
  - reflexivity.
  - inversion Hok as [|? ? Hkv Hok']; subst; simpl in Hkv.
    simpl map in Ht, Hp, Hn, Hr; cbn [In] in Ht, Hp, Hn, Hr.
    unfold lookup_or; cbn [DefCoords_visit_map_loop].
    unfold DefCoords_field_ok in Hkv.
    destruct (String.eqb_spec k "type") as [->|Nt].
    { rewrite (Ht (or_introl eq_refl)).
      destruct (filter_nodup_head DefCoords_is_field "type" (map fst kvs) eq_refl Hnd) as [Hni Hnd'].
      destruct (Shape_deserialize v) as [x|e] eqn:E; [|discriminate]; simpl.
      rewrite IH by (auto; intros; tauto).
      unfold lookup_or; rewrite (assoc_lookup_not_in "type" kvs Hni).
      rewrite ?assoc_lookup_skip by field_neq; simpl; now rewrite ?E. }
    destruct (String.eqb_spec k "provider") as [->|Np].
    { rewrite (Hp (or_introl eq_refl)).
      destruct (filter_nodup_head DefCoords_is_field "provider" (map fst kvs) eq_refl Hnd) as [Hni Hnd'].
      destruct (Provider_deserialize v) as [x|e] eqn:E; [|discriminate]; simpl.
      rewrite IH by (auto; intros; tauto).
      unfold lookup_or; rewrite (assoc_lookup_not_in "provider" kvs Hni).
      rewrite ?assoc_lookup_skip by field_neq; simpl; now rewrite ?E. }
    destruct (String.eqb_spec k "name") as [->|Nn].
    { rewrite (Hn (or_introl eq_refl)).
      destruct (filter_nodup_head DefCoords_is_field "name" (map fst kvs) eq_refl Hnd) as [Hni Hnd'].
      destruct (String_deserialize v) as [x|e] eqn:E; [|discriminate]; simpl.
      rewrite IH by (auto; intros; tauto).
      unfold lookup_or; rewrite (assoc_lookup_not_in "name" kvs Hni).
      rewrite ?assoc_lookup_skip by field_neq; simpl; now rewrite ?E. }
    destruct (String.eqb_spec k "revision") as [->|Nr].
    { rewrite (Hr (or_introl eq_refl)).
      destruct (filter_nodup_head DefCoords_is_field "revision" (map fst kvs) eq_refl Hnd) as [Hni Hnd'].
      destruct (CoordVersion_deserialize v) as [x|e] eqn:E; [|discriminate]; simpl.
      rewrite IH by (auto; intros; tauto).
      unfold lookup_or; rewrite (assoc_lookup_not_in "revision" kvs Hni).
      rewrite ?assoc_lookup_skip by field_neq; simpl; now rewrite ?E. }
    rewrite IH by (eauto using filter_nodup_skip; intros; tauto).
    unfold lookup_or; rewrite !assoc_lookup_skip by auto; reflexivity.
Qed.

Lemma DefCoords_loop_app (st : DefCoordsFields) kvs1 kvs2 :
  DefCoords_visit_map_loop st (kvs1 ++ kvs2)%list =
  let* st' := DefCoords_visit_map_loop st kvs1 in DefCoords_visit_map_loop st' kvs2.
Proof.
  revert st; induction kvs1 as [|[k v] kvs1 IH]; intros [t p n r]; [reflexivity|].
  rewrite <- app_comm_cons; simpl.
  destruct (String.eqb k "type"); [destruct t; [reflexivity|]; destruct (Shape_deserialize v); [apply IH|reflexivity]|].
  destruct (String.eqb k "provider"); [destruct p; [reflexivity|]; destruct (Provider_deserialize v); [apply IH|reflexivity]|].
  destruct (String.eqb k "name"); [destruct n; [reflexivity|]; destruct (String_deserialize v); [apply IH|reflexivity]|].
  destruct (String.eqb k "revision"); [destruct r; [reflexivity|]; destruct (CoordVersion_deserialize v); [apply IH|reflexivity]|].
  apply IH.
Qed.

End DefCoordsProofs.

(** The [coordinates] object of a definition decodes by key: when none of
    [type], [provider], [name], [revision] occurs twice and every value
    under one of them decodes with its field's type, the outcome depends
    only on the value under each key, not on the order of the entries or
    on any other key; a missing field is reported as the first missing one
    in the order [type], [provider], [name], [revision]. *)
Theorem DefCoords_deserialize_by_key {SL : SemverLib} (kvs : list (MapKey * json)) :
  NoDup (filter DefCoords_is_field (map fst (entries kvs))) ->
  Forall (fun kv => DefCoords_field_ok (fst kv) (snd kv) = true) (entries kvs) ->
  DefCoords_deserialize (JObject kvs) =
  match assoc_lookup "type" (entries kvs), assoc_lookup "provider" (entries kvs),
        assoc_lookup "name" (entries kvs), assoc_lookup "revision" (entries kvs) with
  | None, _, _, _ => Err (MissingField "type")
  | Some _, None, _, _ => Err (MissingField "provider")
  | Some _, Some _, None, _ => Err (MissingField "name")
  | Some _, Some _, Some _, None => Err (MissingField "revision")
  | Some vt, Some vp, Some vn, Some vr =>
    let* t := Shape_deserialize vt in
    let* p := Provider_deserialize vp in
    let* n := String_deserialize vn in
    let* r := CoordVersion_deserialize vr in
    Ok (mkDefCoords t p n r)
  end.
Proof.
  simpl; unfold DefCoords_visit_map; generalize (entries kvs); clear kvs.
  intros kvs Hnd Hok.
  rewrite DefCoords_loop_spec by auto; simpl.
  assert (Hf : forall k v, assoc_lookup k kvs = Some v -> DefCoords_field_ok k v = true).
  { intros k v Hl; apply assoc_lookup_in in Hl.
    exact (proj1 (Forall_forall _ _) Hok _ Hl). }
  unfold lookup_or.
  destruct (assoc_lookup "type" kvs) as [vt|] eqn:Et; [|reflexivity].
  specialize (Hf _ _ Et) as Ht; unfold DefCoords_field_ok in Ht; simpl in Ht.
  destruct (Shape_deserialize vt) as [t|]; [|discriminate]; simpl.
  destruct (assoc_lookup "provider" kvs) as [vp|] eqn:Ep; [|reflexivity].
  specialize (Hf _ _ Ep) as Hp; unfold DefCoords_field_ok in Hp; simpl in Hp.
  destruct (Provider_deserialize vp) as [p|]; [|discriminate]; simpl.
  destruct (assoc_lookup "name" kvs) as [vn|] eqn:En; [|reflexivity].
  specialize (Hf _ _ En) as Hn; unfold DefCoords_field_ok in Hn; simpl in Hn.
  destruct (String_deserialize vn) as [n|]; [|discriminate]; simpl.
  destruct (assoc_lookup "revision" kvs) as [vr|] eqn:Er; [|reflexivity].
  specialize (Hf _ _ Er) as Hr; unfold DefCoords_field_ok in Hr; simpl in Hr.
  destruct (CoordVersion_deserialize vr) as [r|]; [|discriminate]; reflexivity.
Qed.

Lemma DefCoords_deserialize_by_key_witness :
  DefCoords_deserialize
    (jobj [("revision", JString "abcdef"); ("url", JNumber 1); ("name", JString "myrepo");
              ("provider", JString "github"); ("type", JString "git")])
  = Ok coords_myrepo /\
  DefCoords_deserialize
    (jobj [("name", JString "myrepo"); ("type", JString "git")])
  = Err (MissingField "provider").
Proof.
  unfold jobj; split.
  - rewrite DefCoords_deserialize_by_key;
      [reflexivity|vm_compute; repeat constructor; simpl; intuition discriminate
      |repeat constructor].
  - rewrite DefCoords_deserialize_by_key;
      [reflexivity|vm_compute; repeat constructor; simpl; intuition discriminate
      |repeat constructor].
Defined.

(** A [DefCoords] field that occurs a second time is a duplicate-field
    error, whatever the second value and whatever follows, once the
    entries before it decoded. *)
Theorem DefCoords_deserialize_duplicate {SL : SemverLib}
  (pre post : list (MapKey * json)) (k : MapKey) (v : json) :
  DefCoords_is_field (key_str k) = true -> In (key_str k) (map fst (entries pre)) ->
  NoDup (filter DefCoords_is_field (map fst (entries pre))) ->
  Forall (fun kv => DefCoords_field_ok (fst kv) (snd kv) = true) (entries pre) ->
  DefCoords_deserialize (JObject (pre ++ (k, v) :: post)%list) = Err (DuplicateField (key_str k)).
Proof.
  simpl; unfold DefCoords_visit_map, entries; rewrite map_app; simpl.
  fold (entries pre) (entries post); generalize (entries pre) (entries post) (key_str k).
  clear pre post k; intros pre post k Hk Hin Hnd Hok.
  rewrite DefCoords_loop_app, DefCoords_loop_spec by (auto; intros; tauto); simpl.
  assert (Hf : forall v', assoc_lookup k pre = Some v' -> DefCoords_field_ok k v' = true).
  { intros v' Hl; apply assoc_lookup_in in Hl.
    exact (proj1 (Forall_forall _ _) Hok _ Hl). }
  destruct (assoc_lookup k pre) as [v'|] eqn:El.
  2:{ exfalso; clear -Hin El; induction pre as [|[k' x] pre IH]; [easy|].
      simpl in Hin, El; destruct (String.eqb_spec k' k); [discriminate|].
      destruct Hin; [congruence|auto]. }
  specialize (Hf _ eq_refl); unfold lookup_or; unfold DefCoords_is_field in Hk.
  unfold DefCoords_field_ok in Hf.
  destruct (String.eqb_spec k "type") as [Ek|];
    [subst k; rewrite El; destruct (Shape_deserialize v'); [reflexivity|discriminate]|].
  destruct (String.eqb_spec k "provider") as [Ek|];
    [subst k; rewrite El; destruct (Provider_deserialize v'); [reflexivity|discriminate]|].
  destruct (String.eqb_spec k "name") as [Ek|];
    [subst k; rewrite El; destruct (String_deserialize v'); [reflexivity|discriminate]|].
  destruct (String.eqb_spec k "revision") as [Ek|];
    [subst k; rewrite El; destruct (CoordVersion_deserialize v'); [reflexivity|discriminate]|].
  discriminate.
Qed.

Lemma DefCoords_deserialize_duplicate_witness :
  DefCoords_deserialize
    (jobj [("type", JString "git"); ("name", JString "a"); ("type", JNumber 3)])
  = Err (DuplicateField "type").
Proof.
  apply (DefCoords_deserialize_duplicate (borrowed [("type", JString "git"); ("name", JString "a")]) []
           (Borrowed "type"));
    [reflexivity|simpl; auto|vm_compute; repeat constructor; simpl; intuition discriminate
    |repeat constructor].
Defined.



Lemma assoc_lookup_unique {V} (f : string -> bool) (kvs : list (string * V)) k v v' :
  f k = true -> NoDup (filter f (map fst kvs)) -> In (k, v) kvs ->
  assoc_lookup k kvs = Some v' -> v = v'.
Proof.
  induction kvs as [|[k0 v0] kvs IH]; simpl; intros Hk Hnd Hin Hl; [destruct Hin|].
  destruct (String.eqb_spec k0 k) as [->|Hne].
  - injection Hl as <-.
    destruct (filter_nodup_head f k (map fst kvs) Hk Hnd) as [Hni _].
    destruct Hin as [[= ->]|Hin]; [reflexivity|].
    exfalso; apply Hni, in_map_iff; now exists (k, v).
  - destruct Hin as [[= -> ->]|Hin]; [congruence|].
    eapply IH; eauto using filter_nodup_skip.
Qed.

Lemma TopLevelScore_loop_spec (kvs : list (string * json)) e t :
  NoDup (filter TopLevelScore_is_field (map fst kvs)) ->
  Forall (fun kv => TopLevelScore_field_ok (fst kv) (snd kv) = true) kvs ->
  (In "effective" (map fst kvs) -> e = None) ->
  (In "tool" (map fst kvs) -> t = None) ->
  TopLevelScore_visit_map_loop (e, t) kvs =
  Ok (lookup_or u8_deserialize "effective" kvs e, lookup_or u8_deserialize "tool" kvs t).
Proof.
  revert e t; induction kvs as [|[k v] kvs IH]; intros e t Hnd Hok He Ht; [reflexivity|].
  inversion Hok as [|? ? Hkv Hok']; subst; simpl in Hkv.
  simpl map in He, Ht; cbn [In] in He, Ht.
  unfold lookup_or; cbn [TopLevelScore_visit_map_loop].
  unfold TopLevelScore_field_ok, TopLevelScore_is_field in Hkv.
  destruct (String.eqb_spec k "effective") as [->|Ne].
  { rewrite (He (or_introl eq_refl)).
    destruct (filter_nodup_head TopLevelScore_is_field "effective" (map fst kvs) eq_refl Hnd)
      as [Hni Hnd'].
    destruct (u8_deserialize v) as [x|] eqn:E; [|discriminate]; simpl.
    rewrite IH by (auto; intros; tauto).
    unfold lookup_or; rewrite (assoc_lookup_not_in "effective" kvs Hni); now rewrite ?E. }
  destruct (String.eqb_spec k "tool") as [->|Nt].
  { rewrite (Ht (or_introl eq_refl)).
    destruct (filter_nodup_head TopLevelScore_is_field "tool" (map fst kvs) eq_refl Hnd)
      as [Hni Hnd'].
    destruct (u8_deserialize v) as [x|] eqn:E; [|discriminate]; simpl.
    rewrite IH by (auto; intros; tauto).
    unfold lookup_or; rewrite (assoc_lookup_not_in "tool" kvs Hni); now rewrite ?E. }
  rewrite IH by (eauto using filter_nodup_skip; intros; tauto).
  unfold lookup_or; rewrite !assoc_lookup_skip by auto; reflexivity.
Qed.

Lemma TopLevelScore_loop_ok st kvs st' :
  TopLevelScore_visit_map_loop st kvs = Ok st' ->
  Forall (fun kv => TopLevelScore_field_ok (fst kv) (snd kv) = true) kvs.
Proof.
  revert st; induction kvs as [|[k v] kvs IH]; intros [e t] H; [constructor|].
  cbn [TopLevelScore_visit_map_loop] in H.
  constructor; unfold TopLevelScore_field_ok, TopLevelScore_is_field; simpl.
  - destruct (String.eqb k "effective"); simpl.
    + destruct e; [discriminate|].
      destruct (u8_deserialize v); [reflexivity|discriminate].
    + destruct (String.eqb k "tool"); [|reflexivity].
      destruct t; [discriminate|].
      destruct (u8_deserialize v); [reflexivity|discriminate].
  - destruct (String.eqb k "effective").
    + destruct e; [discriminate|].
      destruct (u8_deserialize v); [eauto|discriminate].
    + destruct (String.eqb k "tool"); [|eauto].
      destruct t; [discriminate|].
      destruct (u8_deserialize v); [eauto|discriminate].
Qed.

(** A top-level score object whose [effective] and [tool] each occur once
    with an integer value decodes exactly when both integers lie in
    [0, 255], to those two values; other keys and the order of the
    entries do not matter. *)
Theorem TopLevelScore_deserialize_range (kvs : list (MapKey * json)) (e t : Z) :
  NoDup (filter TopLevelScore_is_field (map fst (entries kvs))) ->
  assoc_lookup "effective" (entries kvs) = Some (JNumber e) ->
  assoc_lookup "tool" (entries kvs) = Some (JNumber t) ->
  ((exists s, TopLevelScore_deserialize (JObject kvs) = Ok s) <->
   (0 <= e <= 255 /\ 0 <= t <= 255)%Z) /\
  ((0 <= e <= 255 /\ 0 <= t <= 255)%Z ->
   TopLevelScore_deserialize (JObject kvs) = Ok (mkTopLevelScore (Z.to_N e) (Z.to_N t))).
Proof.
  change (TopLevelScore_deserialize (JObject kvs)) with (TopLevelScore_visit_map (entries kvs)).
  generalize (entries kvs); clear kvs; intros kvs Hnd He Ht.
  assert (Hin : (0 <= e <= 255 /\ 0 <= t <= 255)%Z ->
                TopLevelScore_visit_map kvs = Ok (mkTopLevelScore (Z.to_N e) (Z.to_N t))).
  { intros [Hre Hrt]; unfold TopLevelScore_visit_map.
    assert (Ee : u8_deserialize (JNumber e) = Ok (Z.to_N e))
      by (apply (proj1 (u8_deserialize_spec _)); exists e; auto).
    assert (Et : u8_deserialize (JNumber t) = Ok (Z.to_N t))
      by (apply (proj1 (u8_deserialize_spec _)); exists t; auto).
    assert (Hok : Forall (fun kv => TopLevelScore_field_ok (fst kv) (snd kv) = true) kvs).
    { apply Forall_forall; intros [k v] Hkv; unfold TopLevelScore_field_ok; simpl.
      destruct (TopLevelScore_is_field k) eqn:Hk; [|reflexivity].
      unfold TopLevelScore_is_field in Hk.
      destruct (String.eqb_spec k "effective") as [->|].
      - rewrite (assoc_lookup_unique TopLevelScore_is_field kvs "effective" _ _ eq_refl Hnd Hkv He), Ee; reflexivity.
      - destruct (String.eqb_spec k "tool") as [->|]; [|discriminate].
        rewrite (assoc_lookup_unique TopLevelScore_is_field kvs "tool" _ _ eq_refl Hnd Hkv Ht), Et; reflexivity. }
    rewrite TopLevelScore_loop_spec by (auto; intros; reflexivity).
    unfold lookup_or; rewrite He, Ht, Ee, Et; reflexivity. }
  split; [split|exact Hin].
  - intros [s Hs]; unfold TopLevelScore_visit_map in Hs.
    destruct (TopLevelScore_visit_map_loop (None, None) kvs) as [st|] eqn:E; [|discriminate].
    apply TopLevelScore_loop_ok in E.
    pose proof (proj1 (Forall_forall _ _) E _ (assoc_lookup_in _ _ _ He)) as Fe.
    pose proof (proj1 (Forall_forall _ _) E _ (assoc_lookup_in _ _ _ Ht)) as Ft.
    unfold TopLevelScore_field_ok in Fe, Ft; cbn [fst snd] in Fe, Ft.
    replace (TopLevelScore_is_field "effective") with true in Fe by reflexivity.
    replace (TopLevelScore_is_field "tool") with true in Ft by reflexivity.
    destruct (u8_deserialize (JNumber e)) as [ne|] eqn:Ee; [|discriminate].
    destruct (u8_deserialize (JNumber t)) as [nt|] eqn:Et; [|discriminate].
    apply (proj1 (u8_deserialize_spec _)) in Ee as [? [[= <-] [Hre _]]].
    apply (proj1 (u8_deserialize_spec _)) in Et as [? [[= <-] [Hrt _]]].
    auto.
  - intros H; eexists; now apply Hin.
Qed.

Lemma TopLevelScore_deserialize_range_witness :
  ~ (exists s, TopLevelScore_deserialize
                 (jobj [("tool", JNumber 3); ("effective", JNumber 256)]) = Ok s).
Proof.
  intros H.
  apply (proj1 (proj1 (TopLevelScore_deserialize_range
                         (borrowed [("tool", JNumber 3); ("effective", JNumber 256)]) 256 3
                         ltac:(vm_compute; repeat constructor; simpl; intuition discriminate)
                         eq_refl eq_refl))) in H.
  lia.
Defined.

(** ** The definition visitor by key *)

Lemma visit_map_loop_spec (m : list (string * ValueDe)) c d l f s :
  NoDup (filter Definition_is_field (map fst m)) ->
  Forall (fun kv => Definition_field_ok (fst kv) (snd kv) = true) m ->
  (In "coordinates" (map fst m) -> c = None) ->
  (In "described" (map fst m) -> d = None) ->
  (In "licensed" (map fst m) -> l = None) ->
  (In "files" (map fst m) -> f = []) ->
  visit_map_loop (mkDefVisitState c d l f s) (borrowed m) =
  Ok (mkDefVisitState
        (lookup_with "coordinates" m (fun v => ok_of (next_coords v)) c)
        (lookup_with "described" m (fun v => Some (ok_of (next_description v))) d)
        (lookup_with "licensed" m (fun v => Some (ok_of (next_license v))) l)
        (lookup_with "files" m (fun v => match next_files v with Ok x => x | Err _ => f end) f)
        (lookup_with "scores" m (fun v => match next_scores v with Ok x => x | Err _ => s end) s)).
Proof.
  revert c d l f s; induction m as [|[k v] m IH]; intros c d l f s Hnd Hok Hc Hd Hl Hf;
    [reflexivity|].
  inversion Hok as [|? ? Hkv Hok']; subst; simpl in Hkv.
  simpl map in Hc, Hd, Hl, Hf; cbn [In] in Hc, Hd, Hl, Hf.
  unfold lookup_with; cbn [borrowed List.map fst snd visit_map_loop next_key_str]; fold (borrowed m).
  unfold Definition_field_ok in Hkv.
  destruct (String.eqb_spec k "coordinates") as [->|N1].
  { rewrite (Hc (or_introl eq_refl)).
    destruct (filter_nodup_head Definition_is_field "coordinates" (map fst m) eq_refl Hnd)
      as [Hni Hnd'].
    destruct (next_coords v) as [x|] eqn:E; [|discriminate]; simpl.
    rewrite IH by (auto; intros; tauto).
    unfold lookup_with; rewrite (assoc_lookup_not_in "coordinates" m Hni); now rewrite ?E. }
  destruct (String.eqb_spec k "described") as [->|N2].
  { rewrite (Hd (or_introl eq_refl)).
    destruct (filter_nodup_head Definition_is_field "described" (map fst m) eq_refl Hnd)
      as [Hni Hnd'].
    rewrite IH by (auto; intros; tauto).
    unfold lookup_with; rewrite (assoc_lookup_not_in "described" m Hni); reflexivity. }
  destruct (String.eqb_spec k "licensed") as [->|N3].
  { rewrite (Hl (or_introl eq_refl)).
    destruct (filter_nodup_head Definition_is_field "licensed" (map fst m) eq_refl Hnd)
      as [Hni Hnd'].
    rewrite IH by (auto; intros; tauto).
    unfold lookup_with; rewrite (assoc_lookup_not_in "licensed" m Hni); reflexivity. }
  destruct (String.eqb_spec k "files") as [->|N4].
  { rewrite (Hf (or_introl eq_refl)).
    destruct (filter_nodup_head Definition_is_field "files" (map fst m) eq_refl Hnd)
      as [Hni Hnd'].
    destruct (next_files v) as [x|] eqn:E; [|discriminate]; simpl.
    rewrite IH by (auto; intros; tauto).
    unfold lookup_with; rewrite (assoc_lookup_not_in "files" m Hni); now rewrite ?E. }
  destruct (String.eqb_spec k "scores") as [->|N5].
  { destruct (filter_nodup_head Definition_is_field "scores" (map fst m) eq_refl Hnd)
      as [Hni Hnd'].
    destruct (next_scores v) as [x|] eqn:E; [|discriminate]; simpl.
    rewrite IH by (auto; intros; tauto).
    unfold lookup_with; rewrite (assoc_lookup_not_in "scores" m Hni); now rewrite ?E. }
  rewrite IH by (eauto using filter_nodup_skip; intros; tauto).
  unfold lookup_with; rewrite !assoc_lookup_skip by auto; reflexivity.
Qed.

(** A definition object decodes by key: when none of its five fields
    occurs twice and the values under [coordinates], [files] and [scores]
    decode, the outcome depends only on the value under each key, not on
    the order of the entries or on other keys; [described] and [licensed]
    keep their decoded value or become [None], [files] defaults to the
    empty list and [scores] to zero scores, and a missing field is
    reported as the first missing one of [coordinates], [described],
    [licensed]. *)
Theorem DefVisitor_by_key (m : list (string * ValueDe)) :
  NoDup (filter Definition_is_field (map fst m)) ->
  Forall (fun kv => Definition_field_ok (fst kv) (snd kv) = true) m ->
  DefVisitor_visit_map (borrowed m) =
  match assoc_lookup "coordinates" m, assoc_lookup "described" m,
        assoc_lookup "licensed" m with
  | None, _, _ => Err (MissingField "coordinates")
  | Some _, None, _ => Err (MissingField "described")
  | Some _, Some _, None => Err (MissingField "licensed")
  | Some vc, Some vd, Some vl =>
    let* c := next_coords vc in
    let* f := match assoc_lookup "files" m with
              | Some vf => next_files vf | None => Ok [] end in
    let* s := match assoc_lookup "scores" m with
              | Some vs => next_scores vs | None => Ok (mkTopLevelScore 0 0) end in
    Ok (mkDefinition c (ok_of (next_description vd)) (ok_of (next_license vl)) f s)
  end.
Proof.
  intros Hnd Hok; unfold DefVisitor_visit_map, DefVisitState_init.
  rewrite visit_map_loop_spec by auto; simpl.
  assert (Hf : forall k v, assoc_lookup k m = Some v -> Definition_field_ok k v = true).
  { intros k v Hlk; apply assoc_lookup_in in Hlk.
    exact (proj1 (Forall_forall _ _) Hok _ Hlk). }
  unfold DefVisitor_finish, lookup_with; simpl.
  destruct (assoc_lookup "coordinates" m) as [vc|] eqn:Ec; [|reflexivity].
  specialize (Hf _ _ Ec) as Hc; unfold Definition_field_ok in Hc; simpl in Hc.
  destruct (next_coords vc) as [c|]; [|discriminate]; simpl.
  destruct (assoc_lookup "described" m) as [vd|]; [|reflexivity].
  destruct (assoc_lookup "licensed" m) as [vl|]; [|reflexivity].
  destruct (assoc_lookup "files" m) as [vf|] eqn:Ef.
  - specialize (Hf _ _ Ef) as Hfv; unfold Definition_field_ok in Hfv; simpl in Hfv.
    destruct (next_files vf) as [fs|]; [|discriminate]; simpl.
    destruct (assoc_lookup "scores" m) as [vs|] eqn:Es; [|reflexivity].
    specialize (Hf _ _ Es) as Hs; unfold Definition_field_ok in Hs; simpl in Hs.
    destruct (next_scores vs); [reflexivity|discriminate].
  - simpl; destruct (assoc_lookup "scores" m) as [vs|] eqn:Es; [|reflexivity].
    specialize (Hf _ _ Es) as Hs; unfold Definition_field_ok in Hs; simpl in Hs.
    destruct (next_scores vs); [reflexivity|discriminate].
Qed.

Lemma DefVisitor_by_key_witness :
  DefVisitor_visit_map (borrowed [("licensed", vd_scalar "null"); ("_meta", vd_scalar "object");
                        ("coordinates", vd_coords_myrepo); ("described", vd_scalar "null")])
  = Ok (mkDefinition coords_myrepo None None [] (mkTopLevelScore 0 0)).
Proof.
  rewrite (DefVisitor_by_key [("licensed", vd_scalar "null"); ("_meta", vd_scalar "object");
                              ("coordinates", vd_coords_myrepo); ("described", vd_scalar "null")]);
    [reflexivity|vm_compute; repeat constructor; simpl; intuition discriminate
    |repeat constructor].
Defined.

(** A failure to decode the first [coordinates], [files] or [scores] value
    fails the whole definition with that error, whatever follows, once the
    entries before it decoded (unlike [described] and [licensed], whose
    failures are dropped). *)
Theorem DefVisitor_fatal_fields (pre : list (string * ValueDe)) (post : MapAccess)
  (k : string) (v : ValueDe) (e : DeError) :
  NoDup (filter Definition_is_field (map fst pre)) ->
  Forall (fun kv => Definition_field_ok (fst kv) (snd kv) = true) pre ->
  ~ In k (map fst pre) ->
  (k = "coordinates" /\ next_coords v = Err e \/
   k = "files" /\ next_files v = Err e \/
   k = "scores" /\ next_scores v = Err e) ->
  DefVisitor_visit_map (borrowed pre ++ (Borrowed k, v) :: post)%list = Err e.
Proof.
  intros Hnd Hok Hni Hk; unfold DefVisitor_visit_map, DefVisitState_init.
  destruct Hk as [[-> E]|[[-> E]|[-> E]]];
    rewrite visit_map_loop_app, visit_map_loop_spec by (auto; intros; tauto);
    unfold lookup_with; rewrite !(assoc_lookup_not_in _ pre Hni);
    simpl; now rewrite E.
Qed.

Lemma DefVisitor_fatal_fields_witness :
  DefVisitor_visit_map (borrowed [("described", vd_scalar "null"); ("coordinates", vd_scalar "null");
                        ("licensed", vd_scalar "null")])
  = Err (InvalidType "null").
Proof.
  apply (DefVisitor_fatal_fields [("described", vd_scalar "null")]
           (borrowed [("licensed", vd_scalar "null")]) "coordinates" (vd_scalar "null"));
    [vm_compute; repeat constructor; simpl; intuition discriminate
    |repeat constructor|simpl; intuition discriminate|left; split; reflexivity].
Defined.

(** An entry whose key is none of the five fields is skipped: inserting it
    anywhere leaves the outcome unchanged. *)
Theorem DefVisitor_unknown_key_ignored (pre post : MapAccess) (k : string) (v : ValueDe) :
  Definition_is_field k = false ->
  DefVisitor_visit_map (pre ++ (Borrowed k, v) :: post)%list = DefVisitor_visit_map (pre ++ post)%list.
Proof.
  intros Hk; unfold DefVisitor_visit_map.
  rewrite !visit_map_loop_app.
  destruct (visit_map_loop DefVisitState_init pre) as [[c d l f s]|]; [|reflexivity].
  unfold Definition_is_field in Hk.
  repeat rewrite Bool.orb_false_iff in Hk.
  destruct Hk as [[[[H1 H2] H3] H4] H5].
  simpl; now rewrite H1, H2, H3, H4, H5.
Qed.

Lemma DefVisitor_unknown_key_ignored_witness :
  DefVisitor_visit_map (borrowed [("coordinates", vd_coords_myrepo); ("_id", vd_scalar "string");
                        ("described", vd_scalar "null"); ("licensed", vd_scalar "null")])
  = Ok (mkDefinition coords_myrepo None None [] (mkTopLevelScore 0 0)).
Proof.
  pose proof (DefVisitor_unknown_key_ignored (borrowed [("coordinates", vd_coords_myrepo)])
                (borrowed [("described", vd_scalar "null"); ("licensed", vd_scalar "null")])
                "_id" (vd_scalar "string") eq_refl) as H.
  etransitivity; [exact H|reflexivity].
Defined.

(** ** A failing definition in a batch *)

Lemma collect_items_prefix (value_de : json -> ValueDe) acc pre rest :
  Forall (fun kv => is_ok (Definition_deserialize value_de (snd kv)) = true) pre ->
  exists acc', collect_items value_de acc (pre ++ rest)%list = collect_items value_de acc' rest.
Proof.
  revert acc; induction pre as [|[k v] pre IH]; intros acc Hok; [now exists acc|].
  inversion Hok as [|? ? Hkv Hok']; subst; simpl in Hkv |- *.
  destruct (Definition_deserialize value_de v) as [d|]; [|discriminate].
  now apply IH.
Qed.

(** One definition that fails to decode fails the whole batch response:
    the result is the JSON error of the first entry, in document order,
    whose value does not decode, and no definition is returned. *)
Theorem GetResponse_first_error {B : Type} (value_de : json -> ValueDe)
  (parse_json : B -> result json DeError) (r : Response B)
  (pre post : list (MapKey * json)) (k : MapKey) (v : json) (e : DeError) :
  parse_json (body r) = Ok (JObject (pre ++ (k, v) :: post)%list) ->
  Forall (fun kv => is_ok (Definition_deserialize value_de (snd kv)) = true) pre ->
  Definition_deserialize value_de v = Err e ->
  GetResponse_try_from value_de B parse_json r = Err (Json e).
Proof.
  intros Hp Hok Hv; unfold GetResponse_try_from, RawGetResponse_deserialize.
  rewrite Hp; unfold entries; rewrite map_app; cbn [List.map fst snd].
  assert (Hok' : Forall (fun kv => is_ok (Definition_deserialize value_de (snd kv)) = true)
                   (entries pre)).
  { unfold entries; apply Forall_map; exact Hok. }
  destruct (collect_items_prefix value_de [] (entries pre)
              ((key_str k, v) :: entries post) Hok') as [acc' Hacc].
  unfold entries in Hacc; rewrite Hacc; simpl; now rewrite Hv.
Qed.

(** With the decoders of this crate for [coordinates] and [scores], a
    batch response in which one definition names an unknown [type] fails
    as a whole, with the custom error "other error". *)
Lemma GetResponse_first_error_witness :
  GetResponse_try_from
    (value_de_of (SL := SemverStd) (reject_all "struct Description")
       (reject_all "struct License") (reject_all "a sequence"))
    json (fun j => Ok j) demo_bad_shape_response
  = Err (Json (Custom "other error")).
Proof.
  apply (GetResponse_first_error _ _ demo_bad_shape_response
           (borrowed [("crate/cratesio/-/a/1.0.0", demo_definition_of (demo_coords_json "crate" "a"))]) []
           (Borrowed "svn/cratesio/-/b/1.0.0") (demo_definition_of (demo_coords_json "svn" "b")));
    [reflexivity|repeat constructor|reflexivity].
Defined.

(** ** The text of a definition's coordinates *)

Lemma count_char_app (c : ascii) (x y : string) :
  count_char c (x ++ y) = count_char c x + count_char c y.
Proof. induction x as [|a x IH]; simpl; [reflexivity|rewrite IH; lia]. Qed.

(** The text a definition gives for its coordinates, [type/provider/name/revision],
    has no namespace segment, so it never equals the coordinate text of the
    same component ([type/provider/namespace/name/revision], with [-] for
    no namespace): it holds fewer [/]. *)
Theorem DefCoords_display_ne_CoordDisp {SL : SemverLib} {T} `{Coord T} (c : T) (d : DefCoords) :
  coord_shape c = dc_shape d -> coord_provider c = dc_provider d ->
  coord_name c = dc_name d -> coord_version c = dc_revision d ->
  count_char "/" (DefCoords_display d) < count_char "/" (CoordDisp c) /\
  CoordDisp c <> DefCoords_display d.
Proof.
  intros Hs Hp Hn Hv.
  assert (Hlt : count_char "/" (DefCoords_display d) < count_char "/" (CoordDisp c)).
  { unfold CoordDisp, DefCoords_display; rewrite Hs, Hp, Hn, Hv.
    rewrite ?count_char_app; simpl; rewrite ?count_char_app; simpl.
    destruct (coord_curation_pr c); simpl; rewrite ?count_char_app; simpl; lia. }
  split; [exact Hlt|].
  intros E; rewrite E in Hlt; lia.
Qed.

Lemma DefCoords_display_ne_CoordDisp_witness :
  CoordDisp (mkCoordinate Git Github None "myrepo" (Any "abcdef") None)
  <> DefCoords_display coords_myrepo.
Proof.
  exact (proj2 (@DefCoords_display_ne_CoordDisp SemverStd Coordinate _
                  (mkCoordinate Git Github None "myrepo" (Any "abcdef") None) coords_myrepo
                  eq_refl eq_refl eq_refl eq_refl)).
Defined.

Lemma DefCoords_display_split {SL : SemverLib} (d : DefCoords) :
  no_char "/" (dc_name d) = true -> no_char "/" (CoordVersion_display (dc_revision d)) = true ->
  split_on "/" (DefCoords_display d) =
  [Shape_as_str (dc_shape d); Provider_as_str (dc_provider d); dc_name d;
   CoordVersion_display (dc_revision d)].
Proof.
  intros Hn Hv.
  change (DefCoords_display d) with
    (join_on "/" [Shape_as_str (dc_shape d); Provider_as_str (dc_provider d); dc_name d;
                  CoordVersion_display (dc_revision d)]).
  apply split_join; [discriminate|].
  repeat constructor; auto.
  - destruct (dc_shape d); reflexivity.
  - destruct (dc_provider d); reflexivity.
Qed.

(** The text of a definition's coordinates identifies them: two
    coordinates whose names and revision texts hold no [/], and whose
    revisions are what revision parsing makes of their own text, are
    equal when their texts are. *)
Theorem DefCoords_display_injective {SL : SemverLib} (d1 d2 : DefCoords) :
  no_char "/" (dc_name d1) = true -> no_char "/" (CoordVersion_display (dc_revision d1)) = true ->
  no_char "/" (dc_name d2) = true -> no_char "/" (CoordVersion_display (dc_revision d2)) = true ->
  CoordVersion_visit_str (CoordVersion_display (dc_revision d1)) = Ok (dc_revision d1) ->
  CoordVersion_visit_str (CoordVersion_display (dc_revision d2)) = Ok (dc_revision d2) ->
  DefCoords_display d1 = DefCoords_display d2 -> d1 = d2.
Proof.
  intros Hn1 Hv1 Hn2 Hv2 Hr1 Hr2 E.
  apply (f_equal (split_on "/")) in E.
  rewrite !DefCoords_display_split in E by assumption.
  injection E as Es Ep En Ev.
  rewrite Ev, Hr2 in Hr1; injection Hr1 as Hr.
  destruct d1 as [s1 p1 n1 r1], d2 as [s2 p2 n2 r2]; simpl in *.
  subst; f_equal.
  - destruct s1, s2; easy.
  - destruct p1, p2; easy.
Qed.

Lemma DefCoords_display_injective_witness :
  no_char "/" (dc_name coords_myrepo) = true /\
  CoordVersion_visit_str (CoordVersion_display (dc_revision coords_myrepo)) =
    Ok (dc_revision coords_myrepo) /\
  coords_myrepo = coords_myrepo.
Proof.
  split; [reflexivity|]. split; [vm_compute; reflexivity|].
  apply (@DefCoords_display_injective SemverStd coords_myrepo coords_myrepo);
    vm_compute; reflexivity.
Defined.

(** ** Decoding a definition from its text *)

Section TextProofs.
Context {SL : SemverLib} {DL : DateLib}.

(** The visitor's loop reading an unknown key, first or after a comma: it
    does not read the value, so the next [next_key] meets the colon. *)
Lemma DefVisitor_map_loop_unknown (k : string) fuel first st ts :
  Definition_is_field k = false ->
  DefVisitor_map_loop (S (S fuel)) first st
    ((if first then [] else [TComma]) ++ TStr (Borrowed k) :: TColon :: ts)%list
  = (Err ExpectedObjectCommaOrEnd, TColon :: ts).
Proof.
  intros Hk; unfold Definition_is_field in Hk.
  repeat rewrite Bool.orb_false_iff in Hk.
  destruct Hk as [[[[H1 H2] H3] H4] H5].
  destruct st as [c d l f s].
  destruct first; cbn [DefVisitor_map_loop List.app]; unfold de_bind at 1; cbn [sj_next_key];
    unfold de_bind at 1; cbn [de_lift next_key_str];
    rewrite H1, H2, H3, H4, H5; reflexivity.
Qed.

(** The visitor's loop reading a key written with escapes. *)
Lemma DefVisitor_map_loop_copied (k : string) fuel first st ts :
  DefVisitor_map_loop (S fuel) first st
    ((if first then [] else [TComma]) ++ TStr (Copied k) :: ts)%list
  = (Err (InvalidType "a borrowed string"), ts).
Proof. destruct first; reflexivity. Qed.


(** A key written with escapes ([coordinates], say) is a copied
    string, which the visitor's [&str] key cannot take: the definition
    fails with "invalid type: string, expected a borrowed string", in a
    batch as well as from the text, whatever the key's text. *)
Theorem DefVisitor_escaped_key (k : string) :
  (forall (pre post : MapAccess) (v : ValueDe) (st : DefVisitState),
     visit_map_loop DefVisitState_init pre = Ok st ->
     DefVisitor_visit_map (pre ++ (Copied k, v) :: post)%list
     = Err (InvalidType "a borrowed string")) /\
  (forall ts, from_tokens Definition_de (TLBrace :: TStr (Copied k) :: ts)
              = Err (InvalidType "a borrowed string")) /\
  (forall fuel st ts, DefVisitor_map_loop (S fuel) false st (TComma :: TStr (Copied k) :: ts)
                      = (Err (InvalidType "a borrowed string"), ts)).
Proof.
  split; [|split].
  - intros pre post v st H; unfold DefVisitor_visit_map.
    rewrite visit_map_loop_app, H; reflexivity.
  - intros [|t ts]; [reflexivity|destruct t; reflexivity].
  - intros fuel st ts; exact (DefVisitor_map_loop_copied k fuel false st ts).
Qed.


End TextProofs.



Lemma DefVisitor_escaped_key_witness :
  DefVisitor_visit_map (borrowed [("coordinates", vd_coords_myrepo)] ++
                        [(Copied "described", vd_scalar "null")])%list
  = Err (InvalidType "a borrowed string").
Proof.
  apply (proj1 (DefVisitor_escaped_key "described") _ _ _
           (mkDefVisitState (Some coords_myrepo) None None [] (mkTopLevelScore 0 0))).
  reflexivity.
Defined.


